(** * Peep: the resumable sender scan of [main.go], embedded and verified

    The development follows [src/main.go]:
    - [GoStrings]: the functions of Go's [strings] and [regexp] packages the
      program calls, on byte strings;
    - [Resolver]: [extractNameFromEmail] and [parseSender];
    - [Store]: the SQLite tables [senders] and [scan_progress] with
      [loadProgress], [saveProgress], [emailExists] and [saveSendersBatch];
    - [Scan]: [processBatch] and the batch loop of [scanEmailsBatch].

    Integers of type [uint32] are values of [Z] with the wrap-around written
    out ([wrap32]).  Storage and mailbox failures are injected explicitly, so
    every error path of the source can be exercised. *)

From stdpp Require Import gmap strings list fin_maps.
From Stdlib Require Import ZArith Lia Ascii String.

Local Open Scope string_scope.
Local Open Scope Z_scope.
Local Open Scope list_scope.

(** ** Go's [strings] and [regexp], as far as [main.go] uses them *)

Module GoStrings.

(** Strings are sequences of bytes, read by Go as UTF-8.  [ToLower],
    [Title] and [TrimSpace] work byte by byte on a string that is all ASCII
    and go through Go's Unicode tables otherwise.  The tables are taken as
    given: [Unicode] holds what the three functions return on a string with
    a byte outside ASCII. *)

Record Unicode := {
  (** [strings.Map(unicode.ToLower, s)], the slow path of [strings.ToLower] *)
  Map_ToLower : string -> string;
  (** [strings.Title(s)] for [s] with a byte outside ASCII *)
  Map_Title : string -> string;
  (** [strings.TrimFunc(s, unicode.IsSpace)], what [strings.TrimSpace]
      falls back to *)
  TrimFunc_IsSpace : string -> string }.

Definition code (c : ascii) : N := N_of_ascii c.

Definition is_upper (c : ascii) : bool := ((65 <=? code c) && (code c <=? 90))%N.
Definition is_lower (c : ascii) : bool := ((97 <=? code c) && (code c <=? 122))%N.
Definition is_digit (c : ascii) : bool := ((48 <=? code c) && (code c <=? 57))%N.

Definition to_lower (c : ascii) : ascii :=
  if is_upper c then ascii_of_N (code c + 32) else c.

Definition to_title (c : ascii) : ascii :=
  if is_lower c then ascii_of_N (code c - 32) else c.

(** No byte of [s] is [utf8.RuneSelf] (128) or more. *)
Fixpoint is_ascii (s : string) : bool :=
  match s with
  | EmptyString => true
  | String c rest => (code c <? 128)%N && is_ascii rest
  end.

(** The ASCII path of [strings.ToLower]. *)
Fixpoint ToLower_ascii (s : string) : string :=
  match s with
  | EmptyString => EmptyString
  | String c rest => String (to_lower c) (ToLower_ascii rest)
  end.

(** [strings.ToLower]: "optimize for ASCII-only strings", else
    [Map(unicode.ToLower, s)]. *)
Definition ToLower (unicode : Unicode) (s : string) : string :=
  if is_ascii s then ToLower_ascii s else Map_ToLower unicode s.

(** [isSeparator] of package [strings]: ASCII letters, digits and the
    underscore are not separators, every other ASCII byte is. *)
Definition isSeparator (c : ascii) : bool :=
  if (code c <=? 127)%N then
    negb (is_digit c || is_lower c || is_upper c || Ascii.eqb c "_"%char)
  else false.

(** [strings.Title] on an ASCII string, where runes are bytes: a letter
    that follows a separator (or starts the string) is mapped to title
    case; [prev] starts as a space. *)
Fixpoint Title_from (prev : ascii) (s : string) : string :=
  match s with
  | EmptyString => EmptyString
  | String c rest =>
      String (if isSeparator prev then to_title c else c) (Title_from c rest)
  end.

Definition Title_ascii (s : string) : string := Title_from " "%char s.

(** [strings.Title] *)
Definition Title (unicode : Unicode) (s : string) : string :=
  if is_ascii s then Title_ascii s else Map_Title unicode s.

(** [strings.Split(s, sep)] for a separator of one byte: the pieces between
    the occurrences of [sep]; a string without [sep] is its only piece. *)
Fixpoint Split_from (sep : ascii) (piece : string) (s : string) : list string :=
  match s with
  | EmptyString => [piece]
  | String c rest =>
      if Ascii.eqb c sep then piece :: Split_from sep EmptyString rest
      else Split_from sep (piece +:+ String c EmptyString) rest
  end.

Definition Split (s : string) (sep : ascii) : list string :=
  Split_from sep EmptyString s.

(** [strings.Join] *)
Fixpoint Join (parts : list string) (sep : string) : string :=
  match parts with
  | [] => EmptyString
  | [p] => p
  | p :: rest => p +:+ sep +:+ Join rest sep
  end.

(** The character class of the pattern [[._-]+]. *)
Definition in_name_class (c : ascii) : bool :=
  Ascii.eqb c "."%char || Ascii.eqb c "_"%char || Ascii.eqb c "-"%char.

(** [regexp.MustCompile(`[._-]+`).Split(s, -1)]: the text between the
    maximal runs of class characters.  A run at the start or at the end of
    [s] leaves an empty piece there, and the empty string has the one piece
    [""].  [in_run] says that the previous byte belonged to a run. *)
Fixpoint namePattern_from (in_run : bool) (piece : string) (s : string) : list string :=
  match s with
  | EmptyString => [piece]
  | String c rest =>
      if in_name_class c then
        if in_run then namePattern_from true EmptyString rest
        else piece :: namePattern_from true EmptyString rest
      else namePattern_from false (piece +:+ String c EmptyString) rest
  end.

Definition namePattern_Split (s : string) : list string :=
  namePattern_from false EmptyString s.

(** The white space of [asciiSpace]: tab, line feed, vertical tab, form
    feed, carriage return and space. *)
Definition is_space (c : ascii) : bool :=
  ((code c =? 32) || ((9 <=? code c) && (code c <=? 13)))%N.

Fixpoint TrimLeft (s : string) : string :=
  match s with
  | EmptyString => EmptyString
  | String c rest => if is_space c then TrimLeft rest else s
  end.

(** Drops the white space at the end: a byte is kept when it is no space or
    when something that is kept follows it. *)
Fixpoint TrimRight (s : string) : string :=
  match s with
  | EmptyString => EmptyString
  | String c rest =>
      match TrimRight rest with
      | EmptyString => if is_space c then EmptyString else String c EmptyString
      | kept => String c kept
      end
  end.

Definition TrimSpace_ascii (s : string) : string := TrimRight (TrimLeft s).

(** [strings.TrimSpace]: the fast path for ASCII; as soon as it meets a
    byte outside ASCII it hands over to [TrimFunc(s, unicode.IsSpace)],
    which trims the whole string alike. *)
Definition TrimSpace (unicode : Unicode) (s : string) : string :=
  if is_ascii s then TrimSpace_ascii s else TrimFunc_IsSpace unicode s.

End GoStrings.

(** ** The sender identity resolver *)

Module Resolver.
Import GoStrings.

(** [type EmailSender struct { FullName, Email string }] *)
Record EmailSender := { FullName : string; Email : string }.

#[global] Instance EmailSender_eq_dec : EqDecision EmailSender.
Proof. solve_decision. Defined.

(** [extractNameFromEmail] *)
Definition extractNameFromEmail (unicode : Unicode) (emailAddr : string)
  : string :=
  match Split emailAddr "@"%char with
  | [] => EmptyString
  | username :: _ =>
      let nameParts := namePattern_Split username in
      let cleanParts :=
        foldl (fun (clean : list string) part =>
                 if decide (part = EmptyString) then clean
                 else (clean ++ [Title unicode (ToLower unicode part)])%list)
              [] nameParts in
      Join cleanParts " "
  end.

(** What [net/mail] hands back for a header it accepts: [mail.Address]. *)
Record MailAddress := { Name : string; Address : string }.

Section WithParser.

(** [mail.ParseAddress] of Go's standard library is taken as given: [None]
    stands for a returned error. *)
Variable unicode : Unicode.
Variable ParseAddress : string -> option MailAddress.

(** [parseSender]; the two log lines are left out. *)
Definition parseSender (fromHeader : string) : EmailSender :=
  match ParseAddress fromHeader with
  | None => {| FullName := EmptyString; Email := EmptyString |}
  | Some addr =>
      let email := ToLower unicode (Address addr) in
      let fullName :=
        if decide (Name addr = EmptyString)
        then extractNameFromEmail unicode email
        else TrimSpace unicode (Name addr) in
      {| FullName := fullName; Email := email |}
  end.

End WithParser.

End Resolver.

(** ** The store: tables [senders] and [scan_progress] *)

Module Store.
Import GoStrings Resolver.

Definition wrap32 (z : Z) : Z := z mod 4294967296.

Definition fits_uint32 (z : Z) : bool := (0 <=? z) && (z <=? 4294967295).

(** [type Progress struct]; [StartTime] only feeds the printed estimate and
    is left out. *)
Record Progress := {
  LastProcessedUID : Z;
  TotalMessages : Z;
  ProcessedCount : Z }.

Definition set_LastProcessedUID (v : Z) (p : Progress) : Progress :=
  {| LastProcessedUID := v; TotalMessages := TotalMessages p;
     ProcessedCount := ProcessedCount p |}.
Definition set_TotalMessages (v : Z) (p : Progress) : Progress :=
  {| LastProcessedUID := LastProcessedUID p; TotalMessages := v;
     ProcessedCount := ProcessedCount p |}.
Definition set_ProcessedCount (v : Z) (p : Progress) : Progress :=
  {| LastProcessedUID := LastProcessedUID p; TotalMessages := TotalMessages p;
     ProcessedCount := v |}.

(** Go's [error] values of the calls modelled here; [None] is [nil]. *)
Inductive GoError := StorageError | FetchError.

(** The lines of the log file that record a failure or a decision. *)
Inductive LogEvent :=
  | LogBatchSaveStart (n : nat)
  | LogBeginFailed
  | LogPrepareFailed
  | LogSaveError (email : string)
  | LogNewSender (s : EmailSender)
  | LogCommitError
  | LogBatchSaved (saved : Z) (n : nat)
  | LogBatchFetchError
  | LogBatchProcessingError
  | LogBatchSaveError
  | LogProgressSaveError
  | LogNoMessages
  | LogAllProcessed
  | LogStarting (startUID : Z)
  | LogCompleted.

(** Everything the scan can change.  [senders_table] holds the rows of
    [senders] in insertion order ([full_name], [email]; [id] and
    [created_at] are never read back by the scan); [progress_row] is the row
    [id = 1] of [scan_progress], absent before [initDB] has run.  [faults]
    decides the coming calls into the database, one entry per call, [true]
    for a call that returns an error; calls beyond the list succeed.
    [fetched] lists the ranges asked of the mailbox. *)
Record World := {
  senders_table : list EmailSender;
  progress_row : option Progress;
  faults : list bool;
  log : list LogEvent;
  fetched : list (Z * Z) }.

Definition with_senders (rows : list EmailSender) (w : World) : World :=
  {| senders_table := rows; progress_row := progress_row w;
     faults := faults w; log := log w; fetched := fetched w |}.
Definition with_progress (row : option Progress) (w : World) : World :=
  {| senders_table := senders_table w; progress_row := row;
     faults := faults w; log := log w; fetched := fetched w |}.
Definition with_faults (fs : list bool) (w : World) : World :=
  {| senders_table := senders_table w; progress_row := progress_row w;
     faults := fs; log := log w; fetched := fetched w |}.
Definition with_log (l : list LogEvent) (w : World) : World :=
  {| senders_table := senders_table w; progress_row := progress_row w;
     faults := faults w; log := l; fetched := fetched w |}.
Definition with_fetched (f : list (Z * Z)) (w : World) : World :=
  {| senders_table := senders_table w; progress_row := progress_row w;
     faults := faults w; log := log w; fetched := f |}.

(** A database file that was just created. *)
Definition fresh_world : World :=
  {| senders_table := []; progress_row := None; faults := []; log := [];
     fetched := [] |}.

(** *** State passing *)

Definition M (A : Type) : Type := World -> A * World.

Definition ret {A} (a : A) : M A := fun w => (a, w).
Definition bind {A B} (c : M A) (k : A -> M B) : M B :=
  fun w => let (a, w') := c w in k a w'.
Definition gets {A} (f : World -> A) : M A := fun w => (f w, w).
Definition modify (f : World -> World) : M unit := fun w => (tt, f w).

Notation "'let*' x ':=' c 'in' k" := (bind c (fun x => k))
  (at level 10, x binder, k at level 200).

Definition log_event (e : LogEvent) : M unit :=
  modify (fun w => with_log (log w ++ [e])%list w).

(** One call into the database: [true] when it fails. *)
Definition storage_call : M bool :=
  fun w => (hd false (faults w), with_faults (tl (faults w)) w).

(** *** [initDB]

    [CREATE TABLE IF NOT EXISTS] keeps existing rows, and
    [INSERT OR IGNORE INTO scan_progress (id) VALUES (1)] adds the zeroed
    row only when there is none.  The three [CREATE] statements and the
    [INSERT] are one database call each; creating the directory and opening
    the file are not part of the model. *)
Definition zero_progress : Progress :=
  {| LastProcessedUID := 0; TotalMessages := 0; ProcessedCount := 0 |}.

Definition initDB : M (option GoError) :=
  let* f1 := storage_call in
  if f1 then ret (Some StorageError) else
  let* f2 := storage_call in
  if f2 then ret (Some StorageError) else
  let* f3 := storage_call in
  if f3 then ret (Some StorageError) else
  let* f4 := storage_call in
  if f4 then ret (Some StorageError) else
  let* _ := modify (fun w => match progress_row w with
                            | Some _ => w
                            | None => with_progress (Some zero_progress) w
                            end) in
  ret None.

(** *** [loadProgress]

    [row.Scan] fails when the row is missing and when a column does not fit
    the [uint32] field it is scanned into. *)
Definition loadProgress : M (option Progress) :=
  let* failed := storage_call in
  if failed then ret None else
  let* row := gets progress_row in
  match row with
  | None => ret None
  | Some p =>
      if fits_uint32 (LastProcessedUID p) && fits_uint32 (TotalMessages p)
         && fits_uint32 (ProcessedCount p)
      then ret (Some p) else ret None
  end.

(** *** [saveProgress]

    [UPDATE scan_progress SET ... WHERE id = 1]: a missing row makes the
    statement change nothing, which is no error. *)
Definition saveProgress (progress : Progress) : M (option GoError) :=
  let* failed := storage_call in
  if failed then ret (Some StorageError) else
  let* _ := modify (fun w => match progress_row w with
                            | Some _ => with_progress (Some progress) w
                            | None => w
                            end) in
  ret None.

(** *** [emailExists] *)

(** [SELECT COUNT( * ) FROM senders WHERE email = ?] scanned into [count]:
    the error of the call and the value of [count], which stays 0 when the
    call fails. *)
Definition count_email (email : string) (rows : list EmailSender) : Z :=
  Z.of_nat (List.length (filter (fun r => Email r = email) rows)).

Definition query_count (email : string) : M (option GoError * Z) :=
  let* failed := storage_call in
  if failed then ret (Some StorageError, 0) else
  let* rows := gets senders_table in
  ret (None, count_email email rows).

Definition is_nil (e : option GoError) : bool :=
  match e with None => true | Some _ => false end.

Definition emailExists (email : string) : M bool :=
  let* r := query_count email in
  ret (is_nil (fst r) && (snd r >? 0)).

(** *** [saveSendersBatch] *)

(** [INSERT OR IGNORE INTO senders (full_name, email) VALUES (?, ?)] under
    the constraint [email TEXT UNIQUE]: a row whose address is already in
    the table is dropped; the second component is [RowsAffected]. *)
Definition insert_or_ignore (rows : list EmailSender) (s : EmailSender)
  : list EmailSender * Z :=
  if decide (Email s ∈ map Email rows) then (rows, 0)
  else ((rows ++ [s])%list, 1).

(** The loop over [senders] inside the transaction; [tx] is the table as
    the transaction sees it.  A failed [stmt.Exec] is logged and skipped. *)
Fixpoint exec_inserts (verbose : bool) (senders : list EmailSender)
    (tx : list EmailSender) (savedCount : Z) : M (list EmailSender * Z) :=
  match senders with
  | [] => ret (tx, savedCount)
  | sender :: rest =>
      let* failed := storage_call in
      if failed then
        let* _ := log_event (LogSaveError (Email sender)) in
        exec_inserts verbose rest tx savedCount
      else
        let r := insert_or_ignore tx sender in
        if snd r >? 0 then
          let* _ := (if verbose then log_event (LogNewSender sender) else ret tt) in
          exec_inserts verbose rest (fst r) (savedCount + 1)
        else exec_inserts verbose rest (fst r) savedCount
  end.

Definition saveSendersBatch (senders : list EmailSender) (verbose : bool)
  : M (option GoError) :=
  match senders with
  | [] => ret None
  | _ =>
      let* _ := log_event (LogBatchSaveStart (List.length senders)) in
      let* begin_failed := storage_call in
      if begin_failed then
        let* _ := log_event LogBeginFailed in ret (Some StorageError)
      else
        let* tx0 := gets senders_table in
        let* prepare_failed := storage_call in
        if prepare_failed then
          let* _ := log_event LogPrepareFailed in ret (Some StorageError)
        else
          let* r := exec_inserts verbose senders tx0 0 in
          let* commit_failed := storage_call in
          if commit_failed then
            let* _ := log_event LogCommitError in ret (Some StorageError)
          else
            let* _ := modify (with_senders (fst r)) in
            let* _ := log_event (LogBatchSaved (snd r) (List.length senders)) in
            ret None
  end.

End Store.

(** ** The scan: [processBatch] and [scanEmailsBatch] *)

Module Scan.
Import GoStrings Resolver Store.

(** The fields of [Config] the scan reads.  [ShowProgress] only switches
    printing to the terminal, which is not tracked. *)
Record Config := { BatchSize : Z; Verbose : bool }.

(** The last step of [parseFlags]: a batch size outside 100..2000 becomes
    500. *)
Definition clamp_BatchSize (b : Z) : Z :=
  if (b <? 100) || (b >? 2000) then 500 else b.

(** What the consumer finds in one fetched message: no body section
    ([GetBody] returns nil), a body [message.Read] rejects, or an entity
    with the value of its [From] header (empty when there is none). *)
Inductive Body :=
  | NoBody
  | Unreadable
  | Entity (fromHeader : string).

Record Message := { SeqNum : Z; body : Body }.

(** The IMAP server as the scan sees it: whether [DialTLS] and [Login]
    succeed, the message count [Select] reports (a [uint32]; [None] when it
    fails), and for a range the messages [Fetch] pushes into the channel
    before it closes it together with the error it then returns. *)
Record Mailbox := {
  dial_ok : bool;
  login_ok : bool;
  select_INBOX : option Z;
  Fetch : Z -> Z -> list Message * option GoError }.

Inductive ScanError := ErrLoadProgress | ErrConnect | ErrLogin | ErrSelect.

(** How a run of the scan stands: it returned (with [nil] or an error), or
    the batch loop is still going after the iterations it was given. *)
Inductive Outcome :=
  | Returned (err : option ScanError)
  | Running.

(** The result of a run together with the local [progress] as it stands
    then ([None] when it was never loaded). *)
Record ScanEnd := { outcome : Outcome; progress_at_exit : option Progress }.

Section WithParser.

Variable unicode : Unicode.
Variable ParseAddress : string -> option MailAddress.

(** The body of [for msg := range messages] in [processBatch]. *)
Definition consume (senderMap : gmap string EmailSender) (msg : Message)
  : gmap string EmailSender :=
  match body msg with
  | NoBody => senderMap
  | Unreadable => senderMap
  | Entity fromHeader =>
      if decide (fromHeader = EmptyString) then senderMap
      else
        let sender := parseSender unicode ParseAddress fromHeader in
        if decide (Email sender = EmptyString) then senderMap
        else
          match senderMap !! Email sender with
          | Some _ => senderMap
          | None => <[Email sender := sender]> senderMap
          end
  end.

Definition collect (msgs : list Message) : gmap string EmailSender :=
  foldl consume ∅ msgs.

(** [processBatch]: the channel is drained first, then the error of [Fetch]
    is looked at.  Go walks the map in an unspecified order; here it is the
    order of [map_to_list]. *)
Definition processBatch (mb : Mailbox) (startUID endUID : Z)
  : M (list EmailSender * option GoError) :=
  let* _ := modify (fun w => with_fetched (fetched w ++ [(startUID, endUID)])%list w) in
  let r := Fetch mb startUID endUID in
  let senderMap := collect (fst r) in
  match snd r with
  | Some err => let* _ := log_event LogBatchFetchError in ret ([], Some err)
  | None => ret (map snd (map_to_list senderMap), None)
  end.

(** "Filter new senders (not in database)" *)
Fixpoint filter_new (senders newSenders : list EmailSender)
  : M (list EmailSender) :=
  match senders with
  | [] => ret newSenders
  | sender :: rest =>
      let* found := emailExists (Email sender) in
      if found then filter_new rest newSenders
      else filter_new rest (newSenders ++ [sender])%list
  end.

(** "Save to database" *)
Definition store_new (config : Config) (newSenders : list EmailSender)
  : M unit :=
  match newSenders with
  | [] => ret tt
  | _ =>
      let* err := saveSendersBatch newSenders (Verbose config) in
      if is_nil err then ret tt else log_event LogBatchSaveError
  end.

(** "Update progress" at the end of a fetched batch. *)
Definition update_progress (endUID : Z) (progress : Progress) : M Progress :=
  let progress := set_LastProcessedUID endUID progress in
  let progress := set_ProcessedCount endUID progress in
  let* err := saveProgress progress in
  let* _ := (if is_nil err then ret tt else log_event LogProgressSaveError) in
  ret progress.

(** [endUID] of the batch that starts at [currentUID], in [uint32]. *)
Definition batch_end (config : Config) (messages currentUID : Z) : Z :=
  let endUID := wrap32 (currentUID + wrap32 (BatchSize config) - 1) in
  if endUID >? messages then messages else endUID.

(** One pass through the body of the batch loop. *)
Definition batch_body (config : Config) (mb : Mailbox)
    (messages currentUID : Z) (progress : Progress) : M Progress :=
  let endUID := batch_end config messages currentUID in
  let* r := processBatch mb currentUID endUID in
  match snd r with
  | Some _ =>
      let* _ := log_event LogBatchProcessingError in
      let progress := set_LastProcessedUID (wrap32 (currentUID - 1)) progress in
      let* _ := saveProgress progress in
      ret progress
  | None =>
      let* newSenders := filter_new (fst r) [] in
      let* _ := store_new config newSenders in
      update_progress endUID progress
  end.

(** [for currentUID := startUID; currentUID <= mbox.Messages;
    currentUID += uint32(config.BatchSize)], for at most [fuel] passes.
    The boolean says whether the loop condition was seen to fail. *)
Fixpoint batch_loop (fuel : nat) (config : Config) (mb : Mailbox)
    (messages currentUID : Z) (progress : Progress) : M (bool * Progress) :=
  if currentUID <=? messages then
    match fuel with
    | O => ret (false, progress)
    | S fuel' =>
        let* progress := batch_body config mb messages currentUID progress in
        batch_loop fuel' config mb messages
          (wrap32 (currentUID + wrap32 (BatchSize config))) progress
    end
  else ret (true, progress).

Definition scan_end (o : Outcome) (p : option Progress) : ScanEnd :=
  {| outcome := o; progress_at_exit := p |}.

(** [scanEmailsBatch] *)
Definition scanEmailsBatch (fuel : nat) (config : Config) (mb : Mailbox)
  : M ScanEnd :=
  let* loaded := loadProgress in
  match loaded with
  | None => ret (scan_end (Returned (Some ErrLoadProgress)) None)
  | Some progress =>
      if negb (dial_ok mb) then
        ret (scan_end (Returned (Some ErrConnect)) (Some progress))
      else if negb (login_ok mb) then
        ret (scan_end (Returned (Some ErrLogin)) (Some progress))
      else
        match select_INBOX mb with
        | None => ret (scan_end (Returned (Some ErrSelect)) (Some progress))
        | Some messages =>
            let progress := set_TotalMessages messages progress in
            if messages =? 0 then
              let* _ := log_event LogNoMessages in
              ret (scan_end (Returned None) (Some progress))
            else
              let startUID := wrap32 (LastProcessedUID progress + 1) in
              if startUID >? messages then
                let* _ := log_event LogAllProcessed in
                ret (scan_end (Returned None) (Some progress))
              else
                let* _ := log_event (LogStarting startUID) in
                let* r := batch_loop fuel config mb messages startUID progress in
                if fst r then
                  let* _ := log_event LogCompleted in
                  ret (scan_end (Returned None) (Some (snd r)))
                else ret (scan_end Running (Some (snd r)))
        end
  end.

(** One invocation of the program, as [main] drives it: the database calls
    of this invocation fail as [inv_faults] says, [initDB] runs, and when it
    succeeds the scan runs.  [showStats], called before and after the scan,
    only reads and ignores its errors; its calls are left out of the
    schedule of faults. *)
Record Invocation := {
  inv_fuel : nat;
  inv_config : Config;
  inv_mailbox : Mailbox;
  inv_faults : list bool }.

Definition invoke (w : World) (i : Invocation) : World :=
  let (err, w1) := initDB (with_faults (inv_faults i) w) in
  match err with
  | Some _ => w1
  | None => snd (scanEmailsBatch (inv_fuel i) (inv_config i) (inv_mailbox i) w1)
  end.

Definition invocations (runs : list Invocation) (w : World) : World :=
  foldl invoke w runs.

End WithParser.

End Scan.

(** ** The name derivation as the specification words it *)

Module NameSpec.
Import GoStrings.

(** "the local part of the address (the substring before [@])" *)
Fixpoint local_part (s : string) : string :=
  match s with
  | EmptyString => EmptyString
  | String c rest =>
      if Ascii.eqb c "@"%char then EmptyString else String c (local_part rest)
  end.

(** "split on runs of [.], [_], or [-]", keeping the "non-empty
    fragment[s]": the maximal runs of other bytes, [piece] being the run
    read so far. *)
Fixpoint fragments_from (piece : string) (s : string) : list string :=
  match s with
  | EmptyString => if decide (piece = EmptyString) then [] else [piece]
  | String c rest =>
      if in_name_class c then
        if decide (piece = EmptyString) then fragments_from EmptyString rest
        else piece :: fragments_from EmptyString rest
      else fragments_from (piece +:+ String c EmptyString) rest
  end.

Definition fragments (s : string) : list string := fragments_from EmptyString s.

(** "title-case each non-empty fragment; join with single spaces" *)
Definition derived_name (unicode : Unicode) (emailAddr : string) : string :=
  Join (map (fun fragment => Title unicode (ToLower unicode fragment))
            (fragments (local_part emailAddr))) " ".

End NameSpec.

(** ** Sightings of an address in a message stream *)

Module BatchSpec.
Import GoStrings Resolver Scan.

Section WithParser.

Variable unicode : Unicode.
Variable ParseAddress : string -> option MailAddress.

(** The identity a message contributes: none when it has no readable
    [From] header or when the header does not resolve to an address. *)
Definition sighting (msg : Message) : option EmailSender :=
  match body msg with
  | Entity fromHeader =>
      if decide (fromHeader = EmptyString) then None
      else
        let sender := parseSender unicode ParseAddress fromHeader in
        if decide (Email sender = EmptyString) then None else Some sender
  | _ => None
  end.

(** The identity of the first message of the stream that resolves to
    [email]. *)
Fixpoint first_sighting (email : string) (msgs : list Message)
  : option EmailSender :=
  match msgs with
  | [] => None
  | msg :: rest =>
      match sighting msg with
      | Some sender =>
          if decide (Email sender = email) then Some sender
          else first_sighting email rest
      | None => first_sighting email rest
      end
  end.

End WithParser.

End BatchSpec.

(** ** Concrete data for the examples *)

Module Examples.
Import GoStrings Resolver Store Scan.

(** The examples are all ASCII and never get to the Unicode tables; the
    identity stands in for them. *)
Definition example_unicode : Unicode :=
  {| Map_ToLower := fun s => s; Map_Title := fun s => s;
     TrimFunc_IsSpace := fun s => s |}.

Definition has_space (s : string) : bool :=
  existsb is_space (list_ascii_of_string s).

(** An address [local@domain] with both sides non-empty and no white
    space. *)
Definition plain_addr_spec (s : string) : bool :=
  match Split s "@"%char with
  | [l; d] =>
      negb (String.eqb l EmptyString) && negb (String.eqb d EmptyString)
      && negb (has_space s)
  | _ => false
  end.

(** A small parser to put in the place of [mail.ParseAddress] in examples:
    it accepts [local@domain] and [Name <local@domain>]. *)
Definition example_ParseAddress (s : string) : option MailAddress :=
  match Split (TrimSpace_ascii s) "<"%char with
  | [addr] =>
      if plain_addr_spec addr
      then Some {| Name := EmptyString; Address := addr |} else None
  | [name; rest] =>
      match Split rest ">"%char with
      | [addr; EmptyString] =>
          if plain_addr_spec addr
          then Some {| Name := TrimSpace_ascii name; Address := addr |} else None
      | _ => None
      end
  | _ => None
  end.

Definition message (n : Z) (fromHeader : string) : Message :=
  {| SeqNum := n; body := Entity fromHeader |}.

(** A batch in which the same address is seen three times. *)
Definition example_stream : list Message :=
  [ message 1 "Bob <A@x.com>";
    message 2 "Not An Address";
    message 3 "Robert <a@X.com>";
    {| SeqNum := 4; body := NoBody |};
    message 5 "carol.jones@y.org";
    message 6 "a@x.com" ].

Definition config_500 : Config := {| BatchSize := 500; Verbose := false |}.

(** The database after [initDB] on a new file. *)
Definition initialised_world : World := snd (initDB fresh_world).

(** A mailbox of 1247 messages in which every range can be fetched. *)
Definition steady_mailbox : Mailbox :=
  {| dial_ok := true; login_ok := true; select_INBOX := Some 1247;
     Fetch := fun _ _ => (example_stream, None) |}.

(** The same mailbox, but the range that starts at 501 cannot be
    fetched. *)
Definition flaky_mailbox : Mailbox :=
  {| dial_ok := true; login_ok := true; select_INBOX := Some 1247;
     Fetch := fun startUID _ =>
       if startUID =? 501 then ([], Some FetchError)
       else (example_stream, None) |}.

(** A mailbox of six messages, and a database in which the ninth call,
    the [UPDATE] of [saveProgress] after the only batch, fails. *)
Definition small_mailbox : Mailbox :=
  {| dial_ok := true; login_ok := true; select_INBOX := Some 6;
     Fetch := fun _ _ => (example_stream, None) |}.

Definition world_failing_save : World :=
  with_faults (replicate 8 false ++ [true]) initialised_world.

(** The database after a complete scan of 1247 messages. *)
Definition finished_world : World :=
  with_progress
    (Some {| LastProcessedUID := 1247; TotalMessages := 1247;
             ProcessedCount := 1247 |})
    initialised_world.

(** A database whose checkpoint is at the largest [uint32]. *)
Definition world_at_uint32_max : World :=
  with_progress
    (Some {| LastProcessedUID := 4294967295; TotalMessages := 4294967295;
             ProcessedCount := 4294967295 |})
    initialised_world.

(** A mailbox without messages. *)
Definition empty_mailbox : Mailbox :=
  {| dial_ok := true; login_ok := true; select_INBOX := Some 0;
     Fetch := fun _ _ => ([], None) |}.

(** Two invocations of the program on the same mailbox.  The first one is
    cut off after one batch; in the second one the sixth and the seventh
    database call, the two queries of [emailExists] for the batch
    [501,1000], fail, so that both senders are taken for new. *)
Definition example_runs : list Invocation :=
  [ {| inv_fuel := 1; inv_config := config_500;
       inv_mailbox := steady_mailbox; inv_faults := [] |};
    {| inv_fuel := 5; inv_config := config_500;
       inv_mailbox := steady_mailbox;
       inv_faults := replicate 5 false ++ [true; true] |} ].

End Examples.

(** ** Invariants of the store *)

Module Invariants.
Import GoStrings Resolver Store.

(** No two rows of [senders] have the same address. *)
Definition unique_emails (w : World) : Prop :=
  NoDup (map Email (senders_table w)).

(** [w'] differs from [w] at most in the log and in the faults still to
    come, and a run without faults stays without. *)
Definition same_data (w w' : World) : Prop :=
  senders_table w' = senders_table w
  ∧ progress_row w' = progress_row w
  ∧ fetched w' = fetched w
  ∧ (faults w = [] → faults w' = []).

(** A property of worlds that does not look at the log and that survives
    the consumption of a fault. *)
Definition insensitive (I : World → Prop) : Prop :=
  (∀ w l, I w → I (with_log l w))
  ∧ (∀ w, I w → I (with_faults (tl (faults w)) w)).

(** [triple P c Q]: run from a world with [P], the computation [c] ends
    with a result and a world related by [Q]. *)
Definition triple {A} (P : World → Prop) (c : M A) (Q : A → World → Prop)
  : Prop :=
  ∀ w, P w → Q (fst (c w)) (snd (c w)).

(** A property of worlds that every step of the scan keeps: it does not
    depend on the log, the faults to come, the progress row or the list of
    fetched ranges, and a transaction on [senders] keeps it. *)
Definition scan_stable (I : World → Prop) : Prop :=
  insensitive I
  ∧ (∀ w row, I w → I (with_progress row w))
  ∧ (∀ w f, I w → I (with_fetched f w))
  ∧ (∀ senders verbose, triple I (saveSendersBatch senders verbose) (λ _, I)).

Definition checkpoint (last total processed : Z) : Progress :=
  {| LastProcessedUID := last; TotalMessages := total;
     ProcessedCount := processed |}.

(** The state a batch starts from when no database call is going to fail:
    the progress row is [row] and the ranges fetched so far are [ranges]. *)
Definition clean (row : option Progress) (ranges : list (Z * Z)) (w : World)
  : Prop :=
  faults w = [] ∧ progress_row w = row ∧ fetched w = ranges.

(** A run that ended well and wrote nothing and fetched nothing. *)
Definition zero_work (w : World) (r : Scan.ScanEnd * World) : Prop :=
  Scan.outcome (fst r) = Scan.Returned None
  ∧ senders_table (snd r) = senders_table w
  ∧ progress_row (snd r) = progress_row w
  ∧ fetched (snd r) = fetched w.

(** The total of the stored checkpoint is [old] or [new]. *)
Definition stored_total_among (old new : Z) (w : World) : Prop :=
  ∃ q, progress_row w = Some q
       ∧ (TotalMessages q = old ∨ TotalMessages q = new).

(** A database with one sender in which the next call fails. *)
Definition failing_world : World :=
  {| senders_table := [{| FullName := "Ann Lee"; Email := "ann.lee@x.com" |}];
     progress_row := Some zero_progress;
     faults := [true];
     log := [];
     fetched := [] |}.

End Invariants.

(** ** The folder of a user, from [parseFlags] *)

Module Flags.
Import GoStrings.

(** [strings.ReplaceAll(s, old, new)] for an [old] of one byte. *)
Fixpoint ReplaceAll (s : string) (old : ascii) (new : string) : string :=
  match s with
  | EmptyString => EmptyString
  | String c rest =>
      if Ascii.eqb c old then new +:+ ReplaceAll rest old new
      else String c (ReplaceAll rest old new)
  end.

(** "Create safe folder name" *)
Definition safeUsername (username : string) : string :=
  let safe := ReplaceAll username "@"%char "_at_" in
  let safe := ReplaceAll safe "."%char "_" in
  ReplaceAll safe "+"%char "_plus_".

(** Whether the byte [c] occurs in [s]. *)
Fixpoint occurs (c : ascii) (s : string) : bool :=
  match s with
  | EmptyString => false
  | String c' rest => Ascii.eqb c' c || occurs c rest
  end.

End Flags.

(** ** What the name derivation needs of Go's Unicode tables *)

Module UnicodeSpec.
Import GoStrings Flags.

(** Case mapping makes none of the bytes [.], [_], [-] and [@]: a string
    without such a byte is mapped to a string without it.  (The four are
    no letters, and no letter is mapped to one of them.) *)
Definition maps_no_separator (unicode : Unicode) : Prop :=
  ∀ (c : ascii) (s : string),
    c = "."%char ∨ c = "_"%char ∨ c = "-"%char ∨ c = "@"%char →
    occurs c s = false →
    occurs c (Map_ToLower unicode s) = false
    ∧ occurs c (Map_Title unicode s) = false.

End UnicodeSpec.

(** ** What a run is expected to fetch and to store *)

Module RunSpec.
Import GoStrings Resolver Store.

(** The ranges of the batches from [currentUID] on, for batches of
    [batchSize] in a mailbox of [messages] messages, at most [fuel] of
    them; no wrap-around here. *)
Fixpoint batch_ranges (fuel : nat) (batchSize messages currentUID : Z)
  : list (Z * Z) :=
  match fuel with
  | O => []
  | S fuel' =>
      if currentUID <=? messages then
        (currentUID, Z.min (currentUID + batchSize - 1) messages)
        :: batch_ranges fuel' batchSize messages (currentUID + batchSize)
      else []
  end.

(** The table after the statements of a transaction that all succeed. *)
Definition insert_all (rows senders : list EmailSender) : list EmailSender :=
  foldl (fun tx sender => fst (insert_or_ignore tx sender)) rows senders.

(** The stored checkpoint is at [low] or beyond. *)
Definition checkpoint_at_least (low : Z) (w : World) : Prop :=
  ∃ q, progress_row w = Some q ∧ low ≤ LastProcessedUID q.

(** The state of a database in which no call is going to fail and whose
    table [senders] is [rows]. *)
Definition steady (rows : list EmailSender) (w : World) : Prop :=
  faults w = [] ∧ senders_table w = rows.

End RunSpec.

(** ** [main]: what the program reports *)

Module Main.
Import GoStrings Resolver Store Scan.

(** [showStats]: three queries (the number of senders, the progress row,
    the ten latest senders) whose errors are ignored or only logged; what
    it prints is not tracked. *)
Definition showStats : M unit :=
  let* _ := storage_call in
  let* _ := storage_call in
  let* _ := storage_call in
  ret tt.

(** [db.QueryRow("SELECT COUNT( * ) FROM senders").Scan(&totalSenders)] at
    the end of [main]: the error is dropped and [totalSenders] stays 0 when
    the query fails. *)
Definition count_senders : M Z :=
  let* failed := storage_call in
  if failed then ret 0
  else
    let* rows := gets senders_table in
    ret (Z.of_nat (List.length rows)).

(** What the status file says when the program is through: [ERROR] (with
    exit code 1), [SUCCESS] with the number of senders of the message, or
    still [RUNNING], as written at the start, while the scan goes on. *)
Inductive Status :=
  | StatusError
  | StatusSuccess (totalSenders : Z)
  | StatusRunning.

Section WithParser.

Variable unicode : Unicode.
Variable ParseAddress : string -> option MailAddress.

(** [main] after [parseFlags] and [setupLogging]; [batch] and [verbose]
    are the values of the flags [-batch] and [-verbose]. *)
Definition main (fuel : nat) (batch : Z) (verbose : bool) (mb : Mailbox)
  : M Status :=
  let config := {| BatchSize := clamp_BatchSize batch; Verbose := verbose |} in
  let* err := initDB in
  match err with
  | Some _ => ret StatusError
  | None =>
      let* _ := showStats in
      let* e := scanEmailsBatch unicode ParseAddress fuel config mb in
      match outcome e with
      | Returned (Some _) => ret StatusError
      | Returned None =>
          let* _ := showStats in
          let* totalSenders := count_senders in
          ret (StatusSuccess totalSenders)
      | Running => ret StatusRunning
      end
  end.

End WithParser.

End Main.

(** ** Properties of the resolver *)

Module ResolverFacts.
Import GoStrings Resolver NameSpec.

Lemma append_cons (x : ascii) (a b : string) :
  String x a +:+ b = String x (a +:+ b).
Proof. reflexivity. Qed.

Lemma append_assoc (a b c : string) : (a +:+ b) +:+ c = a +:+ (b +:+ c).
Proof.
  induction a as [|x a IH]; [reflexivity|].
  by rewrite !append_cons, IH.
Qed.

Lemma append_empty_r (a : string) : a +:+ EmptyString = a.
Proof.
  induction a as [|x a IH]; [reflexivity|].
  by rewrite append_cons, IH.
Qed.

(** The first piece of [strings.Split(s, "@")] is the text before the
    first [@]. *)
Lemma Split_from_first (s piece : string) :
  ∃ others, Split_from "@"%char piece s = (piece +:+ local_part s) :: others.
Proof.
  revert piece; induction s as [|c rest IH]; intros piece; simpl.
  - exists []. by rewrite append_empty_r.
  - destruct (Ascii.eqb c "@"%char).
    + eexists. by rewrite append_empty_r.
    + destruct (IH (piece +:+ String c EmptyString)) as [others ->].
      exists others. by rewrite append_assoc.
Qed.

(** Dropping the empty pieces of the regexp split leaves the fragments. *)
Lemma namePattern_from_fragments (s piece : string) (in_run : bool) :
  (in_run = true → piece = EmptyString) →
  filter (λ part, part ≠ EmptyString) (namePattern_from in_run piece s)
  = fragments_from piece s.
Proof.
  revert piece in_run; induction s as [|c rest IH]; intros piece in_run Hrun; simpl.
  - destruct (decide (piece = EmptyString)) as [->|Hne].
    + reflexivity.
    + rewrite filter_cons_True by done. reflexivity.
  - destruct (in_name_class c).
    + destruct in_run.
      * rewrite (Hrun eq_refl). simpl. by apply IH.
      * destruct (decide (piece = EmptyString)) as [->|Hne].
        -- rewrite filter_cons_False by (intros H; by apply H). by apply IH.
        -- rewrite filter_cons_True by done. f_equal. by apply IH.
    + apply IH. discriminate.
Qed.

(** The loop that builds [cleanParts] is a filter followed by a map. *)
Lemma cleanParts_filter_map (f : string → string) (parts clean : list string) :
  foldl (fun (clean : list string) part =>
           if decide (part = EmptyString) then clean
           else (clean ++ [f part])%list) clean parts
  = (clean ++ map f (filter (λ part, part ≠ EmptyString) parts))%list.
Proof.
  revert clean; induction parts as [|part parts IH]; intros clean; simpl.
  - by rewrite app_nil_r.
  - destruct (decide (part = EmptyString)) as [->|Hne].
    + rewrite filter_cons_False by (intros H; by apply H). apply IH.
    + rewrite filter_cons_True by done. rewrite IH. simpl.
      by rewrite <- app_assoc.
Qed.

Section WithUnicode.

Variable unicode : Unicode.

Lemma extractNameFromEmail_spec (emailAddr : string) :
  extractNameFromEmail unicode emailAddr = derived_name unicode emailAddr.
Proof.
  unfold extractNameFromEmail, derived_name, Split.
  destruct (Split_from_first emailAddr EmptyString) as [others ->]. simpl.
  rewrite cleanParts_filter_map. simpl.
  unfold namePattern_Split, fragments.
  rewrite namePattern_from_fragments by discriminate. reflexivity.
Qed.

(** C6: with no display name in the header, the name [parseSender] stores
    is derived from the local part of the (lower-cased) address: the local
    part is split on runs of [.], [_] and [-], every non-empty fragment is
    title-cased, and the results are joined with single spaces.  In
    particular [john.doe@x.com] gives [John Doe], [a@x.com] gives [A] and
    [@x.com] gives the empty name. *)
Theorem derived_name_from_local_part :
  (∀ emailAddr, extractNameFromEmail unicode emailAddr = derived_name unicode emailAddr)
  ∧ (∀ (ParseAddress : string → option MailAddress) fromHeader addr,
       ParseAddress fromHeader = Some addr →
       Name addr = EmptyString →
       FullName (parseSender unicode ParseAddress fromHeader)
       = derived_name unicode (Email (parseSender unicode ParseAddress fromHeader)))
  ∧ extractNameFromEmail unicode "john.doe@x.com" = "John Doe"
  ∧ extractNameFromEmail unicode "a@x.com" = "A"
  ∧ extractNameFromEmail unicode "@x.com" = ""
  ∧ extractNameFromEmail unicode "john.doe_smith@x.com" = "John Doe Smith".
Proof.
  split; [exact extractNameFromEmail_spec|].
  split; [|by repeat split].
  intros ParseAddress fromHeader addr Hparse Hname.
  unfold parseSender. rewrite Hparse. simpl.
  destruct (decide (Name addr = EmptyString)); [|done].
  apply extractNameFromEmail_spec.
Qed.

End WithUnicode.

End ResolverFacts.

(** ** Properties of [processBatch] *)

Module BatchFacts.
Import GoStrings Resolver Store Scan BatchSpec.

Section WithParser.

Variable unicode : Unicode.
Variable ParseAddress : string -> option MailAddress.

Local Abbreviation consume := (consume unicode ParseAddress).
Local Abbreviation collect := (collect unicode ParseAddress).
Local Abbreviation sighting := (sighting unicode ParseAddress).
Local Abbreviation first_sighting := (first_sighting unicode ParseAddress).

Lemma consume_sighting (senderMap : gmap string EmailSender) (msg : Message) :
  consume senderMap msg =
  match sighting msg with
  | None => senderMap
  | Some sender =>
      match senderMap !! Email sender with
      | Some _ => senderMap
      | None => <[Email sender := sender]> senderMap
      end
  end.
Proof.
  unfold Scan.consume, BatchSpec.sighting.
  destruct (body msg) as [| |fromHeader]; try reflexivity.
  destruct (decide (fromHeader = EmptyString)); [reflexivity|].
  destruct (decide (Email (parseSender unicode ParseAddress fromHeader) = EmptyString));
    reflexivity.
Qed.

(** The map after the stream: an address already in the map keeps its
    entry, any other address gets its first sighting. *)
Lemma foldl_consume_lookup (msgs : list Message)
    (senderMap : gmap string EmailSender) (email : string) :
  foldl consume senderMap msgs !! email =
  match senderMap !! email with
  | Some sender => Some sender
  | None => first_sighting email msgs
  end.
Proof.
  revert senderMap; induction msgs as [|msg rest IH]; intros senderMap; simpl.
  - by destruct (senderMap !! email).
  - rewrite IH, consume_sighting.
    destruct (sighting msg) as [sender|]; [|reflexivity].
    destruct (senderMap !! Email sender) eqn:Hold.
    + destruct (senderMap !! email) eqn:Hemail; [reflexivity|].
      destruct (decide (Email sender = email)) as [Heq|]; [|reflexivity].
      rewrite Heq in Hold. congruence.
    + destruct (decide (Email sender = email)) as [<-|Hne].
      * by rewrite lookup_insert_eq, Hold.
      * by rewrite lookup_insert_ne.
Qed.

Lemma collect_lookup (msgs : list Message) (email : string) :
  collect msgs !! email = first_sighting email msgs.
Proof. unfold Scan.collect. by rewrite foldl_consume_lookup, lookup_empty. Qed.

Lemma first_sighting_app (email : string) (before after : list Message) :
  first_sighting email (before ++ after) =
  match first_sighting email before with
  | Some sender => Some sender
  | None => first_sighting email after
  end.
Proof.
  induction before as [|msg rest IH]; simpl; [reflexivity|].
  destruct (sighting msg) as [sender|]; [|exact IH].
  destruct (decide (Email sender = email)); [reflexivity|exact IH].
Qed.

Lemma first_sighting_email (email : string) (msgs : list Message)
    (sender : EmailSender) :
  first_sighting email msgs = Some sender → Email sender = email.
Proof.
  induction msgs as [|msg rest IH]; simpl; [discriminate|].
  destruct (sighting msg) as [s|]; [|exact IH].
  destruct (decide (Email s = email)); [by intros [= <-]|exact IH].
Qed.

(** What [processBatch] returns and what it leaves behind. *)
Lemma processBatch_unfold (mb : Mailbox) (startUID endUID : Z) (w : World) :
  processBatch unicode ParseAddress mb startUID endUID w =
  let w1 := with_fetched (fetched w ++ [(startUID, endUID)]) w in
  match snd (Fetch mb startUID endUID) with
  | Some err => (([], Some err), with_log (log w1 ++ [LogBatchFetchError]) w1)
  | None =>
      ((map snd (map_to_list (collect (fst (Fetch mb startUID endUID)))), None), w1)
  end.
Proof.
  unfold processBatch, bind, modify. simpl.
  destruct (snd (Fetch mb startUID endUID)); reflexivity.
Qed.

Lemma elem_of_processBatch (mb : Mailbox) (startUID endUID : Z) (w : World)
    (msgs : list Message) (sender : EmailSender) :
  Fetch mb startUID endUID = (msgs, None) →
  sender ∈ fst (fst (processBatch unicode ParseAddress mb startUID endUID w))
  ↔ first_sighting (Email sender) msgs = Some sender.
Proof.
  intros Hfetch. rewrite processBatch_unfold, Hfetch. simpl.
  rewrite <- collect_lookup. split.
  - intros Hin. apply list_elem_of_fmap in Hin as [[email s] [-> Hin]].
    apply elem_of_map_to_list in Hin. simpl.
    pose proof Hin as Hfirst. rewrite collect_lookup in Hfirst.
    apply first_sighting_email in Hfirst. by rewrite Hfirst.
  - intros Hlook. apply list_elem_of_fmap. exists (Email sender, sender).
    split; [reflexivity|]. by apply elem_of_map_to_list.
Qed.

(** A message whose header does not parse leaves the map as it is. *)
Lemma consume_unparsable (senderMap : gmap string EmailSender) (n : Z)
    (fromHeader : string) :
  ParseAddress fromHeader = None →
  consume senderMap {| SeqNum := n; body := Entity fromHeader |} = senderMap.
Proof.
  intros Hparse. unfold Scan.consume, parseSender. simpl. rewrite Hparse. simpl.
  destruct (decide (fromHeader = EmptyString)); [reflexivity|].
  destruct (decide (EmptyString = EmptyString)); [reflexivity|done].
Qed.

(** C7: a [From] header that [mail.ParseAddress] rejects resolves to the
    empty identity; the consumer of [processBatch] drops that message and
    goes on with the rest of the stream, so the senders of the batch are
    those of the stream without the message; and the error [processBatch]
    returns is the one of [Fetch], whatever the messages were. *)
Theorem unparsable_header_is_skipped (fromHeader : string) :
  ParseAddress fromHeader = None →
  parseSender unicode ParseAddress fromHeader
  = {| FullName := EmptyString; Email := EmptyString |}
  ∧ (∀ before after n,
       collect (before ++ {| SeqNum := n; body := Entity fromHeader |} :: after)
       = collect (before ++ after))
  ∧ (∀ mb startUID endUID before after n err w,
       Fetch mb startUID endUID
       = (before ++ {| SeqNum := n; body := Entity fromHeader |} :: after, err) →
       snd (fst (processBatch unicode ParseAddress mb startUID endUID w)) = err
       ∧ (err = None →
          fst (fst (processBatch unicode ParseAddress mb startUID endUID w))
          = map snd (map_to_list (collect (before ++ after))))).
Proof.
  intros Hparse.
  assert (Hskip : ∀ before after n,
    collect (before ++ {| SeqNum := n; body := Entity fromHeader |} :: after)
    = collect (before ++ after)).
  { intros before after n. unfold Scan.collect.
    rewrite !foldl_app. simpl. by rewrite consume_unparsable. }
  split; [|split; [exact Hskip|]].
  - unfold parseSender. by rewrite Hparse.
  - intros mb startUID endUID before after n err w Hfetch.
    rewrite processBatch_unfold, Hfetch. simpl.
    destruct err as [e|]; simpl; [by split|].
    split; [reflexivity|]. intros ?. by rewrite Hskip.
Qed.

(** C10: within one batch the identity kept for an address is the one of
    the first message of the stream that resolves to it; a later message
    with the same (lower-cased) address never replaces it, and the senders
    [processBatch] returns are exactly these first sightings. *)
Theorem first_sender_of_an_address_is_kept :
  (∀ msgs email, collect msgs !! email = first_sighting email msgs)
  ∧ (∀ before after email sender,
       first_sighting email before = Some sender →
       collect (before ++ after) !! email = Some sender)
  ∧ (∀ mb startUID endUID w msgs sender,
       Fetch mb startUID endUID = (msgs, None) →
       sender ∈ fst (fst (processBatch unicode ParseAddress mb startUID endUID w))
       ↔ first_sighting (Email sender) msgs = Some sender).
Proof.
  split; [exact collect_lookup|]. split.
  - intros before after email sender Hfirst.
    by rewrite collect_lookup, first_sighting_app, Hfirst.
  - intros mb startUID endUID w msgs sender. apply elem_of_processBatch.
Qed.

End WithParser.

Import Examples.

Lemma unparsable_header_is_skipped_witness :
  example_ParseAddress "Not An Address" = None
  ∧ parseSender example_unicode example_ParseAddress "Not An Address"
    = {| FullName := EmptyString; Email := EmptyString |}
  ∧ collect example_unicode example_ParseAddress example_stream
    = collect example_unicode example_ParseAddress
        ([message 1 "Bob <A@x.com>"]
         ++ [ message 3 "Robert <a@X.com>"; {| SeqNum := 4; body := NoBody |};
              message 5 "carol.jones@y.org"; message 6 "a@x.com" ]).
Proof.
  split; [reflexivity|].
  destruct (unparsable_header_is_skipped example_unicode example_ParseAddress
              "Not An Address" eq_refl) as (Hempty & Hskip & _).
  split; [exact Hempty|].
  exact (Hskip [message 1 "Bob <A@x.com>"]
               [ message 3 "Robert <a@X.com>"; {| SeqNum := 4; body := NoBody |};
                 message 5 "carol.jones@y.org"; message 6 "a@x.com" ] 2).
Defined.

(** In the example stream [a@x.com] is seen as "Bob", as "Robert" and
    without a name: "Bob" stays. *)
Example example_stream_keeps_first :
  collect example_unicode example_ParseAddress example_stream !! "a@x.com"
  = Some {| FullName := "Bob"; Email := "a@x.com" |}
  ∧ collect example_unicode example_ParseAddress example_stream !! "carol.jones@y.org"
    = Some {| FullName := "Carol Jones"; Email := "carol.jones@y.org" |}
  ∧ size (collect example_unicode example_ParseAddress example_stream) = 2%nat.
Proof. vm_compute. by repeat split. Qed.

End BatchFacts.

(** ** Properties of the store *)

Module StoreFacts.
Import GoStrings Resolver Store Invariants.

Ltac run_m :=
  unfold bind, ret, gets, modify, log_event, storage_call; simpl.

Ltac open_world :=
  unfold with_senders, with_progress, with_faults, with_log, with_fetched in *;
  simpl in *.

(** *** Rules for [triple] *)

Lemma bind_run {A B} (c : M A) (k : A → M B) (w : World) :
  bind c k w = k (fst (c w)) (snd (c w)).
Proof. unfold bind. by destruct (c w). Qed.

Lemma triple_ret {A} (P : World → Prop) (a : A) (Q : A → World → Prop) :
  (∀ w, P w → Q a w) → triple P (ret a) Q.
Proof. intros H w HP. by apply H. Qed.

Lemma triple_bind {A B} (P : World → Prop) (c : M A) (k : A → M B)
    (Q : A → World → Prop) (R : B → World → Prop) :
  triple P c Q → (∀ a, triple (Q a) (k a) R) → triple P (bind c k) R.
Proof.
  intros Hc Hk w HP. rewrite bind_run. apply Hk. by apply Hc.
Qed.

Lemma triple_gets {A} (P : World → Prop) (f : World → A)
    (Q : A → World → Prop) :
  (∀ w, P w → Q (f w) w) → triple P (gets f) Q.
Proof. intros H w HP. by apply H. Qed.

Lemma triple_modify (P : World → Prop) (f : World → World)
    (Q : unit → World → Prop) :
  (∀ w, P w → Q tt (f w)) → triple P (modify f) Q.
Proof. intros H w HP. by apply H. Qed.

(** A fact that holds in every world of the precondition may be used. *)
Lemma triple_assume {A} (P : World → Prop) (F : Prop) (P' : World → Prop)
    (c : M A) (Q : A → World → Prop) :
  (∀ w, P w → P' w ∧ F) → (F → triple P' c Q) → triple P c Q.
Proof. intros HP Hc w Hw. destruct (HP w Hw) as [Hw' HF]. by apply Hc. Qed.

Lemma triple_and {A} (P : World → Prop) (c : M A)
    (Q1 Q2 : A → World → Prop) :
  triple P c Q1 → triple P c Q2 → triple P c (λ a w, Q1 a w ∧ Q2 a w).
Proof. intros H1 H2 w Hw. split; [by apply H1|by apply H2]. Qed.

Lemma triple_storage_call (I : World → Prop) :
  insensitive I → triple I storage_call (λ _, I).
Proof. intros [_ HI] w Hw. by apply HI. Qed.

Lemma triple_log_event (I : World → Prop) (e : LogEvent) :
  insensitive I → triple I (log_event e) (λ _, I).
Proof. intros [HI _] w Hw. by apply HI. Qed.

Lemma insensitive_unique : insensitive unique_emails.
Proof. by split. Qed.

(** *** [emailExists] *)

(** Without a storage error [emailExists] says whether the address has a
    row. *)
Lemma emailExists_no_fault (email : string) (w : World) :
  hd false (faults w) = false →
  fst (emailExists email w) = bool_decide (email ∈ map Email (senders_table w)).
Proof.
  intros Hok. unfold emailExists, query_count. run_m. rewrite Hok. simpl.
  unfold count_email.
  induction (senders_table w) as [|row rows IH]; simpl; [reflexivity|].
  destruct (decide (Email row = email)) as [Heq|Hne].
  - rewrite filter_cons_True by done. simpl.
    rewrite bool_decide_eq_true_2 by (rewrite Heq; apply elem_of_cons; by left).
    apply Z.gtb_lt. lia.
  - rewrite filter_cons_False by done. rewrite IH.
    apply bool_decide_ext. rewrite elem_of_cons. split; [by right|].
    by intros [Heq|Hin].
Qed.

(** C2, as the code has it: when the query of [emailExists] returns a
    storage error, [emailExists] answers [false]; its result is a [bool],
    the error goes no further and is not logged either. *)
Theorem emailExists_false_on_storage_error (email : string) (w : World) :
  fst (fst (query_count email w)) = Some StorageError →
  fst (emailExists email w) = false
  ∧ log (snd (emailExists email w)) = log w.
Proof.
  unfold emailExists, query_count. run_m.
  destruct (hd false (faults w)); simpl; [done|discriminate].
Qed.

Lemma emailExists_false_on_storage_error_witness :
  fst (fst (query_count "ann.lee@x.com" failing_world)) = Some StorageError
  ∧ fst (emailExists "ann.lee@x.com" failing_world) = false.
Proof.
  split; [reflexivity|].
  exact (proj1 (emailExists_false_on_storage_error "ann.lee@x.com"
                  failing_world eq_refl)).
Defined.

(** C2 fails as stated: the address has a row, the query fails with a
    storage error, and the check reports the address as absent. *)
Lemma emailExists_swallows_storage_error :
  "ann.lee@x.com" ∈ map Email (senders_table failing_world)
  ∧ fst (fst (query_count "ann.lee@x.com" failing_world)) = Some StorageError
  ∧ fst (emailExists "ann.lee@x.com" failing_world) = false.
Proof. split; [apply list_elem_of_here|by split]. Qed.

(** *** [saveProgress] and [loadProgress] *)


Lemma loadProgress_same_data (w : World) : same_data w (snd (loadProgress w)).
Proof.
  unfold loadProgress, same_data. run_m.
  assert (Htl : faults w = [] → tl (faults w) = []) by (by intros ->).
  destruct (hd false (faults w)); open_world; [by repeat split|].
  destruct (progress_row w) as [p|]; simpl; [|by repeat split].
  destruct (fits_uint32 (LastProcessedUID p) && fits_uint32 (TotalMessages p)
            && fits_uint32 (ProcessedCount p)); by repeat split.
Qed.

(** *** [saveSendersBatch] *)

(** The progress that [loadProgress] returns is the stored row. *)
Lemma loadProgress_row (w : World) (p : Progress) :
  fst (loadProgress w) = Some p →
  progress_row (snd (loadProgress w)) = Some p.
Proof.
  unfold loadProgress. run_m.
  destruct (hd false (faults w)); simpl; [discriminate|]. open_world.
  destruct (progress_row w) as [q|]; simpl; [|discriminate].
  destruct (fits_uint32 (LastProcessedUID q) && fits_uint32 (TotalMessages q)
            && fits_uint32 (ProcessedCount q)); simpl; [|discriminate].
  by intros [= <-].
Qed.

Lemma insert_or_ignore_unique (rows : list EmailSender) (s : EmailSender) :
  NoDup (map Email rows) → NoDup (map Email (fst (insert_or_ignore rows s))).
Proof.
  intros Hnd. unfold insert_or_ignore.
  destruct (decide (Email s ∈ map Email rows)) as [Hin|Hout]; simpl; [done|].
  rewrite map_app. simpl. apply NoDup_app. split; [done|]. split.
  - intros email Hemail Hs. apply list_elem_of_singleton in Hs. by subst.
  - apply NoDup_singleton.
Qed.

(** The statements of a transaction touch nothing but the log and the
    faults. *)
Lemma exec_inserts_preserves (I : World → Prop) (verbose : bool)
    (senders : list EmailSender) :
  insensitive I →
  ∀ tx savedCount,
    triple I (exec_inserts verbose senders tx savedCount) (λ _, I).
Proof.
  intros HI.
  induction senders as [|sender rest IH]; intros tx savedCount; simpl.
  - by apply triple_ret.
  - eapply triple_bind; [by apply triple_storage_call|]. intros [|].
    + eapply triple_bind; [by apply triple_log_event|]. intros ?. apply IH.
    + destruct (snd (insert_or_ignore tx sender) >? 0); [|apply IH].
      eapply triple_bind; [|intros ?; apply IH].
      destruct verbose; [by apply triple_log_event|by apply triple_ret].
Qed.

(** They keep the addresses distinct, whatever is inserted and whichever
    statements fail. *)
Lemma exec_inserts_unique (verbose : bool) (senders : list EmailSender) :
  ∀ tx savedCount,
    NoDup (map Email tx) →
    triple (λ _, True) (exec_inserts verbose senders tx savedCount)
      (λ r _, NoDup (map Email (fst r))).
Proof.
  induction senders as [|sender rest IH]; intros tx savedCount Hnd; simpl.
  - by apply triple_ret.
  - eapply (triple_bind _ _ _ (λ _ _, True)); [done|]. intros [|].
    + eapply (triple_bind _ _ _ (λ _ _, True)); [done|]. intros ?. by apply IH.
    + pose proof (insert_or_ignore_unique tx sender Hnd) as Hins.
      destruct (snd (insert_or_ignore tx sender) >? 0); [|by apply IH].
      eapply (triple_bind _ _ _ (λ _ _, True)); [done|]. intros ?. by apply IH.
Qed.

(** [saveSendersBatch] keeps every property that does not depend on the
    table. *)
Lemma saveSendersBatch_preserves (I : World → Prop)
    (senders : list EmailSender) (verbose : bool) :
  insensitive I →
  (∀ w rows, I w → I (with_senders rows w)) →
  triple I (saveSendersBatch senders verbose) (λ _, I).
Proof.
  intros HI Hrows. unfold saveSendersBatch.
  destruct senders as [|sender rest]; [by apply triple_ret|].
  set (all := sender :: rest). clearbody all.
  eapply triple_bind; [by apply triple_log_event|]. intros ?.
  eapply triple_bind; [by apply triple_storage_call|]. intros [|].
  { eapply triple_bind; [by apply triple_log_event|]. intros ?.
    by apply triple_ret. }
  eapply triple_bind; [by apply (triple_gets _ _ (λ _, I))|]. intros tx0.
  eapply triple_bind; [by apply triple_storage_call|]. intros [|].
  { eapply triple_bind; [by apply triple_log_event|]. intros ?.
    by apply triple_ret. }
  eapply triple_bind; [by apply exec_inserts_preserves|]. intros r.
  eapply triple_bind; [by apply triple_storage_call|]. intros [|].
  { eapply triple_bind; [by apply triple_log_event|]. intros ?.
    by apply triple_ret. }
  eapply triple_bind; [apply (triple_modify _ _ (λ _, I)); auto|]. intros ?.
  eapply triple_bind; [by apply triple_log_event|]. intros ?.
  by apply triple_ret.
Qed.

(** [saveSendersBatch] keeps the addresses of the table distinct: the
    constraint [UNIQUE] of the column does it, for any list of senders. *)
Lemma saveSendersBatch_unique (senders : list EmailSender) (verbose : bool) :
  triple unique_emails (saveSendersBatch senders verbose)
    (λ _, unique_emails).
Proof.
  pose proof insensitive_unique as HI.
  unfold saveSendersBatch.
  destruct senders as [|sender rest]; [by apply triple_ret|].
  set (all := sender :: rest). clearbody all.
  eapply triple_bind; [by apply triple_log_event|]. intros ?.
  eapply triple_bind; [by apply triple_storage_call|]. intros [|].
  { eapply triple_bind; [by apply triple_log_event|]. intros ?.
    by apply triple_ret. }
  eapply triple_bind.
  { apply (triple_gets _ _ (λ tx0 w, unique_emails w ∧ NoDup (map Email tx0))).
    by intros w Hw. }
  intros tx0.
  apply (triple_assume _ (NoDup (map Email tx0)) unique_emails);
    [by intros w [? ?]|]. intros Hnd.
  eapply triple_bind; [by apply triple_storage_call|]. intros [|].
  { eapply triple_bind; [by apply triple_log_event|]. intros ?.
    by apply triple_ret. }
  eapply triple_bind.
  { apply (triple_and _ _ (λ _, unique_emails)
                     (λ r _, NoDup (map Email (fst r))));
      [by apply exec_inserts_preserves|].
    intros w _. by apply (exec_inserts_unique verbose all tx0 0 Hnd w). }
  intros r. simpl.
  apply (triple_assume _ (NoDup (map Email (fst r))) unique_emails);
    [by intros w [? ?]|]. intros Hr.
  eapply triple_bind; [by apply triple_storage_call|]. intros [|].
  { eapply triple_bind; [by apply triple_log_event|]. intros ?.
    by apply triple_ret. }
  eapply triple_bind; [apply (triple_modify _ _ (λ _, unique_emails)); auto|].
  intros ?.
  eapply triple_bind; [by apply triple_log_event|]. intros ?.
  by apply triple_ret.
Qed.

End StoreFacts.

(** ** Every step of the scan keeps the stable properties *)

Module ScanInvariants.
Import GoStrings Resolver Store Scan Invariants StoreFacts.

(** After [parseFlags] the batch size lies between 100 and 2000. *)
Lemma clamp_BatchSize_range (b : Z) : 100 ≤ clamp_BatchSize b ≤ 2000.
Proof.
  unfold clamp_BatchSize.
  destruct (Z.ltb_spec b 100), (Z.gtb_spec b 2000); simpl; lia.
Qed.

Lemma scan_stable_unique : scan_stable unique_emails.
Proof.
  split; [apply insensitive_unique|]. split; [done|]. split; [done|].
  apply saveSendersBatch_unique.
Qed.

Lemma emailExists_preserves (I : World → Prop) (email : string) :
  insensitive I → triple I (emailExists email) (λ _, I).
Proof.
  intros HI. unfold emailExists, query_count.
  apply (triple_bind _ _ _ (λ _, I)); [|intros r; by apply triple_ret].
  eapply triple_bind; [by apply triple_storage_call|]. intros [|].
  - by apply triple_ret.
  - eapply triple_bind; [by apply (triple_gets _ _ (λ _, I))|]. intros rows.
    by apply triple_ret.
Qed.

Lemma filter_new_preserves (I : World → Prop) (senders : list EmailSender) :
  insensitive I →
  ∀ newSenders, triple I (filter_new senders newSenders) (λ _, I).
Proof.
  intros HI. induction senders as [|sender rest IH]; intros newSenders; simpl.
  - by apply triple_ret.
  - eapply triple_bind; [by apply emailExists_preserves|].
    intros [|]; apply IH.
Qed.

Lemma saveProgress_preserves (I : World → Prop) (progress : Progress) :
  insensitive I → (∀ w row, I w → I (with_progress row w)) →
  triple I (saveProgress progress) (λ _, I).
Proof.
  intros HI Hrow. unfold saveProgress.
  eapply triple_bind; [by apply triple_storage_call|]. intros [|].
  - by apply triple_ret.
  - apply (triple_bind _ _ _ (λ _, I)); [|intros ?; by apply triple_ret].
    apply (triple_modify _ _ (λ _, I)). intros w Hw.
    destruct (progress_row w); [by apply Hrow|done].
Qed.

Lemma store_new_preserves (I : World → Prop) (config : Config)
    (newSenders : list EmailSender) :
  insensitive I →
  (∀ senders verbose, triple I (saveSendersBatch senders verbose) (λ _, I)) →
  triple I (store_new config newSenders) (λ _, I).
Proof.
  intros HI Hsave. unfold store_new.
  destruct newSenders as [|sender rest]; [by apply triple_ret|].
  eapply triple_bind; [apply Hsave|]. intros err.
  destruct (is_nil err); [by apply triple_ret|by apply triple_log_event].
Qed.

Section WithParser.

Variable unicode : Unicode.
Variable ParseAddress : string -> option MailAddress.
Variable I : World → Prop.
Hypothesis stable : scan_stable I.

Lemma update_progress_preserves (endUID : Z) (progress : Progress) :
  triple I (update_progress endUID progress) (λ _, I).
Proof.
  destruct stable as (HI & Hrow & _ & _). unfold update_progress.
  eapply triple_bind; [by apply saveProgress_preserves|]. intros err.
  apply (triple_bind _ _ _ (λ _, I)); [|intros ?; by apply triple_ret].
  destruct (is_nil err); [by apply triple_ret|by apply triple_log_event].
Qed.

Lemma processBatch_preserves (mb : Mailbox) (startUID endUID : Z) :
  triple I (processBatch unicode ParseAddress mb startUID endUID) (λ _, I).
Proof.
  destruct stable as (HI & _ & Hfetched & _). unfold processBatch.
  eapply triple_bind; [apply (triple_modify _ _ (λ _, I)); auto|]. intros ?.
  simpl. destruct (snd (Fetch mb startUID endUID)); [|by apply triple_ret].
  eapply triple_bind; [by apply triple_log_event|]. intros ?.
  by apply triple_ret.
Qed.

Lemma batch_body_preserves (config : Config) (mb : Mailbox)
    (messages currentUID : Z) (progress : Progress) :
  triple I (batch_body unicode ParseAddress config mb messages currentUID progress)
    (λ _, I).
Proof.
  pose proof stable as (HI & Hrow & _ & Hsave). unfold batch_body.
  eapply triple_bind; [apply processBatch_preserves|]. intros r.
  destruct (snd r).
  - eapply triple_bind; [by apply triple_log_event|]. intros ?.
    eapply triple_bind; [by apply saveProgress_preserves|]. intros ?.
    by apply triple_ret.
  - eapply triple_bind; [by apply filter_new_preserves|]. intros newSenders.
    eapply triple_bind; [by apply store_new_preserves|]. intros ?.
    apply update_progress_preserves.
Qed.

Lemma batch_loop_preserves (config : Config) (mb : Mailbox) (messages : Z)
    (fuel : nat) :
  ∀ currentUID progress,
    triple I (batch_loop unicode ParseAddress fuel config mb messages
        currentUID progress)
      (λ _, I).
Proof.
  induction fuel as [|fuel IH]; intros currentUID progress; simpl;
    destruct (currentUID <=? messages); try by apply triple_ret.
  eapply triple_bind; [apply batch_body_preserves|]. intros p. apply IH.
Qed.

Lemma loadProgress_preserves : triple I loadProgress (λ _, I).
Proof.
  destruct stable as (HI & _). unfold loadProgress.
  eapply triple_bind; [by apply triple_storage_call|]. intros [|].
  - by apply triple_ret.
  - eapply triple_bind; [by apply (triple_gets _ _ (λ _, I))|]. intros [p|].
    + destruct (fits_uint32 (LastProcessedUID p) && fits_uint32 (TotalMessages p)
                && fits_uint32 (ProcessedCount p)); by apply triple_ret.
    + by apply triple_ret.
Qed.

Lemma initDB_preserves : triple I initDB (λ _, I).
Proof.
  destruct stable as (HI & Hrow & _). unfold initDB.
  do 4 (eapply triple_bind; [by apply triple_storage_call|];
        intros [|]; [by apply triple_ret|]).
  apply (triple_bind _ _ _ (λ _, I)); [|intros ?; by apply triple_ret].
  apply (triple_modify _ _ (λ _, I)). intros w Hw.
  destruct (progress_row w); [done|by apply Hrow].
Qed.

Lemma scanEmailsBatch_preserves (fuel : nat) (config : Config) (mb : Mailbox) :
  triple I (scanEmailsBatch unicode ParseAddress fuel config mb) (λ _, I).
Proof.
  pose proof stable as (HI & _). unfold scanEmailsBatch.
  eapply triple_bind; [apply loadProgress_preserves|]. intros [progress|];
    [|by apply triple_ret].
  destruct (negb (dial_ok mb)); [by apply triple_ret|].
  destruct (negb (login_ok mb)); [by apply triple_ret|].
  destruct (select_INBOX mb) as [messages|]; [|by apply triple_ret].
  simpl. destruct (messages =? 0).
  { eapply triple_bind; [by apply triple_log_event|]. intros ?.
    by apply triple_ret. }
  destruct (_ >? messages).
  { eapply triple_bind; [by apply triple_log_event|]. intros ?.
    by apply triple_ret. }
  eapply triple_bind; [by apply triple_log_event|]. intros ?.
  eapply triple_bind; [apply batch_loop_preserves|]. intros r.
  destruct (fst r); [|by apply triple_ret].
  eapply triple_bind; [by apply triple_log_event|]. intros ?.
  by apply triple_ret.
Qed.

End WithParser.

Lemma invoke_unique (unicode : Unicode) (ParseAddress : string → option MailAddress)
    (w : World) (i : Invocation) :
  unique_emails w → unique_emails (invoke unicode ParseAddress w i).
Proof.
  intros Hu. unfold invoke.
  assert (H0 : unique_emails (with_faults (inv_faults i) w)) by done.
  pose proof (initDB_preserves _ scan_stable_unique _ H0) as H1.
  destruct (initDB (with_faults (inv_faults i) w)) as [err w1]. simpl in H1.
  destruct err; [done|].
  by apply (scanEmailsBatch_preserves unicode ParseAddress _ scan_stable_unique).
Qed.

Lemma invocations_unique (unicode : Unicode) (ParseAddress : string → option
    MailAddress)
    (runs : list Invocation) :
  ∀ w, unique_emails w → unique_emails (invocations unicode ParseAddress runs w).
Proof.
  unfold invocations. induction runs as [|i runs IH]; intros w Hu; simpl.
  - done.
  - apply IH. by apply invoke_unique.
Qed.

Lemma filter_email_absent (email : string) (rows : list EmailSender) :
  email ∉ map Email rows → filter (λ r, Email r = email) rows = [].
Proof.
  induction rows as [|row rows IH]; simpl; [done|].
  intros Hnotin. apply not_elem_of_cons in Hnotin as [Hne Hrest].
  rewrite filter_cons_False by done. by apply IH.
Qed.

(** With distinct addresses, an address has at most one row. *)
Lemma count_email_unique (email : string) (rows : list EmailSender) :
  NoDup (map Email rows) → count_email email rows ≤ 1.
Proof.
  unfold count_email. induction rows as [|row rows IH]; simpl; [lia|].
  intros Hnd. apply NoDup_cons in Hnd as [Hnotin Hnd].
  destruct (decide (Email row = email)) as [Heq|Hne].
  - rewrite filter_cons_True by done. simpl.
    rewrite filter_email_absent by (by rewrite <- Heq). simpl. lia.
  - rewrite filter_cons_False by done. by apply IH.
Qed.

End ScanInvariants.

(** ** One batch and the whole loop, step by step *)

Module LoopFacts.
Import GoStrings Resolver Store Scan Invariants StoreFacts ScanInvariants.

Lemma insensitive_clean (row : option Progress) (ranges : list (Z * Z)) :
  insensitive (clean row ranges).
Proof.
  split; [done|]. intros w (Hf & Hp & Hr). repeat split; try done.
  simpl. by rewrite Hf.
Qed.

Lemma saveSendersBatch_clean (row : option Progress) (ranges : list (Z * Z))
    (senders : list EmailSender) (verbose : bool) :
  triple (clean row ranges) (saveSendersBatch senders verbose)
    (λ _, clean row ranges).
Proof. apply saveSendersBatch_preserves; [apply insensitive_clean|done]. Qed.

(** Saving the checkpoint when no call fails. *)
Lemma saveProgress_clean (row : Progress) (ranges : list (Z * Z))
    (progress : Progress) :
  triple (clean (Some row) ranges) (saveProgress progress)
    (λ err w, err = None ∧ clean (Some progress) ranges w ∧ True).
Proof.
  intros w (Hf & Hp & Hr). unfold saveProgress. run_m. rewrite Hf. simpl.
  open_world. rewrite Hp. simpl. by repeat split.
Qed.

Section WithParser.

Variable unicode : Unicode.
Variable ParseAddress : string -> option MailAddress.

Lemma processBatch_clean (row : option Progress) (ranges : list (Z * Z))
    (mb : Mailbox) (startUID endUID : Z) :
  triple (clean row ranges) (processBatch unicode ParseAddress mb startUID endUID)
    (λ r w, snd r = snd (Fetch mb startUID endUID)
            ∧ clean row (ranges ++ [(startUID, endUID)]) w).
Proof.
  intros w (Hf & Hp & Hr). unfold processBatch. run_m.
  destruct (snd (Fetch mb startUID endUID)); simpl;
    (split; [reflexivity|]); repeat split; simpl; congruence.
Qed.

(** A batch that is fetched, when no database call fails: the checkpoint
    in memory and on disk moves to the end of the batch. *)
Lemma batch_body_fetched (row : Progress) (ranges : list (Z * Z))
    (config : Config) (mb : Mailbox) (messages currentUID : Z)
    (progress : Progress) :
  snd (Fetch mb currentUID (batch_end config messages currentUID)) = None →
  triple (clean (Some row) ranges)
    (batch_body unicode ParseAddress config mb messages currentUID progress)
    (λ p w,
       let endUID := batch_end config messages currentUID in
       let moved :=
         set_ProcessedCount endUID (set_LastProcessedUID endUID progress) in
       p = moved ∧ clean (Some moved) (ranges ++ [(currentUID, endUID)]) w).
Proof.
  intros Hfetch. unfold batch_body.
  eapply triple_bind; [apply processBatch_clean|]. intros r. simpl.
  set (endUID := batch_end config messages currentUID) in *.
  set (ranges' := ranges ++ [(currentUID, endUID)]).
  apply (triple_assume _ (snd r = None) (clean (Some row) ranges')).
  { intros w [Hr Hw]. split; [done|]. by rewrite Hr. }
  intros ->.
  eapply triple_bind.
  { apply filter_new_preserves, insensitive_clean. }
  intros newSenders.
  eapply triple_bind.
  { apply store_new_preserves; [apply insensitive_clean|].
    apply saveSendersBatch_clean. }
  intros ?. unfold update_progress.
  eapply triple_bind; [apply saveProgress_clean|]. intros err. simpl.
  apply (triple_assume _ (err = None)
           (clean (Some (set_ProcessedCount endUID
                           (set_LastProcessedUID endUID progress))) ranges')).
  { by intros w (Herr & Hw & _). }
  intros ->. simpl.
  apply (triple_bind _ _ _
           (λ _, clean (Some (set_ProcessedCount endUID
                                (set_LastProcessedUID endUID progress)))
                       ranges')); [by apply triple_ret|].
  intros ?. by apply triple_ret.
Qed.

(** A batch whose fetch fails, when no database call fails: the checkpoint
    is put back to just before the batch. *)
Lemma batch_body_fetch_failed (row : Progress) (ranges : list (Z * Z))
    (config : Config) (mb : Mailbox) (messages currentUID : Z)
    (progress : Progress) (err : GoError) :
  snd (Fetch mb currentUID (batch_end config messages currentUID)) = Some err →
  triple (clean (Some row) ranges)
    (batch_body unicode ParseAddress config mb messages currentUID progress)
    (λ p w,
       let held := set_LastProcessedUID (wrap32 (currentUID - 1)) progress in
       p = held
       ∧ clean (Some held)
           (ranges ++ [(currentUID, batch_end config messages currentUID)]) w).
Proof.
  intros Hfetch. unfold batch_body.
  eapply triple_bind; [apply processBatch_clean|]. intros r. simpl.
  set (endUID := batch_end config messages currentUID) in *.
  set (ranges' := ranges ++ [(currentUID, endUID)]).
  apply (triple_assume _ (snd r = Some err) (clean (Some row) ranges')).
  { intros w [Hr Hw]. split; [done|]. by rewrite Hr. }
  intros ->.
  eapply triple_bind; [apply triple_log_event, insensitive_clean|]. intros ?.
  eapply triple_bind; [apply saveProgress_clean|]. intros e.
  apply triple_ret. by intros w (_ & Hw & _).
Qed.

(** The loop never touches [TotalMessages]. *)
Lemma batch_body_total (config : Config) (mb : Mailbox)
    (messages currentUID : Z) (progress : Progress) :
  triple (λ _, True)
    (batch_body unicode ParseAddress config mb messages currentUID progress)
    (λ p _, TotalMessages p = TotalMessages progress).
Proof.
  unfold batch_body.
  apply (triple_bind _ _ _ (λ _ _, True)); [done|]. intros r.
  destruct (snd r).
  - apply (triple_bind _ _ _ (λ _ _, True)); [done|]. intros ?.
    apply (triple_bind _ _ _ (λ _ _, True)); [done|]. intros ?.
    by apply triple_ret.
  - apply (triple_bind _ _ _ (λ _ _, True)); [done|]. intros ?.
    apply (triple_bind _ _ _ (λ _ _, True)); [done|]. intros ?.
    unfold update_progress.
    apply (triple_bind _ _ _ (λ _ _, True)); [done|]. intros ?.
    apply (triple_bind _ _ _ (λ _ _, True)); [done|]. intros ?.
    by apply triple_ret.
Qed.

Lemma batch_loop_total (config : Config) (mb : Mailbox) (messages : Z)
    (fuel : nat) :
  ∀ currentUID progress,
    triple (λ _, True)
      (batch_loop unicode ParseAddress fuel config mb messages currentUID progress)
      (λ r _, TotalMessages (snd r) = TotalMessages progress).
Proof.
  induction fuel as [|fuel IH]; intros currentUID progress; simpl;
    destruct (currentUID <=? messages); try by apply triple_ret.
  eapply triple_bind; [apply batch_body_total|]. intros p. simpl.
  apply (triple_assume _ (TotalMessages p = TotalMessages progress) (λ _, True));
    [done|]. intros <-. apply IH.
Qed.

(** The loop ends: while the batch size is positive and the counter cannot
    wrap around, [messages + 1 - currentUID] passes are enough. *)
Lemma batch_loop_ends (config : Config) (mb : Mailbox) (messages : Z)
    (fuel : nat) :
  0 < BatchSize config →
  messages + BatchSize config < 4294967296 →
  ∀ currentUID progress,
    0 ≤ currentUID →
    (Z.to_nat (messages + 1 - currentUID) ≤ fuel)%nat →
    triple (λ _, True)
      (batch_loop unicode ParseAddress fuel config mb messages currentUID progress)
      (λ r _, fst r = true).
Proof.
  intros Hpos Hbound.
  induction fuel as [|fuel IH]; intros currentUID progress Hcur Hfuel; simpl;
    destruct (Z.leb_spec currentUID messages) as [Hle|Hgt];
    try (by apply triple_ret); [lia|].
  apply (triple_bind _ _ _ (λ _ _, True)); [done|]. intros p.
  assert (Hnext : wrap32 (currentUID + wrap32 (BatchSize config))
                  = currentUID + BatchSize config).
  { unfold wrap32. rewrite (Z.mod_small (BatchSize config)) by lia.
    apply Z.mod_small. lia. }
  rewrite Hnext. apply IH; lia.
Qed.

(** Sequencing after a step whose result is known. *)
Lemma triple_bind_eq {A B} (P P' : World → Prop) (c : M A) (k : A → M B)
    (v : A) (R : B → World → Prop) :
  triple P c (λ a w, a = v ∧ P' w) → triple P' (k v) R →
  triple P (bind c k) R.
Proof.
  intros Hc Hk. eapply triple_bind; [exact Hc|]. intros a.
  apply (triple_assume _ (a = v) P'); [by intros w [? ?]|].
  by intros ->.
Qed.

Lemma loadProgress_clean (row : Progress) (ranges : list (Z * Z)) :
  fits_uint32 (LastProcessedUID row) && fits_uint32 (TotalMessages row)
    && fits_uint32 (ProcessedCount row) = true →
  triple (clean (Some row) ranges) loadProgress
    (λ r w, r = Some row ∧ clean (Some row) ranges w).
Proof.
  intros Hfits w (Hf & Hp & Hr). unfold loadProgress. run_m.
  rewrite Hf. simpl. open_world. rewrite Hp, Hfits. simpl.
  by repeat split.
Qed.

(** A run that gets into the loop, when no database call fails: its end is
    the end of the loop. *)
Lemma scanEmailsBatch_clean (row : Progress) (ranges : list (Z * Z))
    (fuel : nat) (config : Config) (mb : Mailbox) (messages : Z)
    (finished : bool) (progress : Progress) (row' : option Progress)
    (ranges' : list (Z * Z)) :
  fits_uint32 (LastProcessedUID row) && fits_uint32 (TotalMessages row)
    && fits_uint32 (ProcessedCount row) = true →
  dial_ok mb = true → login_ok mb = true → select_INBOX mb = Some messages →
  messages ≠ 0 →
  wrap32 (LastProcessedUID row + 1) ≤ messages →
  triple (clean (Some row) ranges)
    (batch_loop unicode ParseAddress fuel config mb messages
       (wrap32 (LastProcessedUID row + 1)) (set_TotalMessages messages row))
    (λ r w, r = (finished, progress) ∧ clean row' ranges' w) →
  triple (clean (Some row) ranges)
    (scanEmailsBatch unicode ParseAddress fuel config mb)
    (λ e w,
       e = scan_end (if finished then Returned None else Running)
                    (Some progress)
       ∧ clean row' ranges' w).
Proof.
  intros Hfits Hdial Hlogin Hselect Hnonzero Hstart Hloop.
  unfold scanEmailsBatch.
  eapply triple_bind_eq; [by apply loadProgress_clean|].
  rewrite Hdial, Hlogin, Hselect. simpl.
  destruct (Z.eqb_spec messages 0) as [|_]; [done|].
  destruct (Z.gtb_spec (wrap32 (LastProcessedUID row + 1)) messages) as [|_];
    [lia|].
  eapply triple_bind; [apply triple_log_event, insensitive_clean|]. intros ?.
  eapply triple_bind_eq; [exact Hloop|]. simpl.
  destruct finished.
  - eapply triple_bind; [apply triple_log_event, insensitive_clean|].
    intros ?. by apply triple_ret.
  - by apply triple_ret.
Qed.

(** A run that finds nothing to do: the mailbox is empty, or the
    checkpoint is at or beyond its last message. *)
Lemma scanEmailsBatch_idle (fuel : nat) (config : Config) (mb : Mailbox)
    (w : World) (p : Progress) (messages : Z) :
  fst (loadProgress w) = Some p →
  dial_ok mb = true → login_ok mb = true → select_INBOX mb = Some messages →
  messages = 0 ∨ wrap32 (LastProcessedUID p + 1) > messages →
  zero_work w (scanEmailsBatch unicode ParseAddress fuel config mb w)
  ∧ progress_at_exit (fst (scanEmailsBatch unicode ParseAddress fuel config mb w))
    = Some (set_TotalMessages messages p).
Proof.
  intros Hload Hdial Hlogin Hselect Hidle.
  pose proof (loadProgress_same_data w) as (Ht & Hp & Hf & _).
  unfold zero_work, scanEmailsBatch. rewrite bind_run, Hload.
  rewrite Hdial, Hlogin, Hselect. simpl.
  destruct (Z.eqb_spec messages 0) as [Hzero|Hnonzero].
  { run_m. by repeat split. }
  destruct Hidle as [|Hgt]; [done|].
  destruct (Z.gtb_spec (wrap32 (LastProcessedUID p + 1)) messages) as [_|];
    [|lia].
  run_m. by repeat split.
Qed.

Lemma batch_loop_step (fuel : nat) (config : Config) (mb : Mailbox)
    (messages currentUID : Z) (progress : Progress) :
  currentUID ≤ messages →
  batch_loop unicode ParseAddress (S fuel) config mb messages currentUID progress
  = (let* progress :=
       batch_body unicode ParseAddress config mb messages currentUID progress
     in batch_loop unicode ParseAddress fuel config mb messages
          (wrap32 (currentUID + wrap32 (BatchSize config))) progress).
Proof.
  intros Hle. simpl. by destruct (Z.leb_spec currentUID messages); [|lia].
Qed.

Lemma batch_loop_done (fuel : nat) (config : Config) (mb : Mailbox)
    (messages currentUID : Z) (progress : Progress) :
  messages < currentUID →
  batch_loop unicode ParseAddress fuel config mb messages currentUID progress
  = ret (true, progress).
Proof.
  intros Hgt.
  destruct fuel; simpl; by destruct (Z.leb_spec currentUID messages); [lia|].
Qed.

Lemma batch_loop_out_of_fuel (config : Config) (mb : Mailbox)
    (messages currentUID : Z) (progress : Progress) :
  currentUID ≤ messages →
  batch_loop unicode ParseAddress 0 config mb messages currentUID progress
  = ret (false, progress).
Proof.
  intros Hle. simpl. by destruct (Z.leb_spec currentUID messages); [|lia].
Qed.

(** When no database call fails, every pass of the loop ends with the
    checkpoint of the run written to the database. *)
Lemma batch_body_saved (config : Config) (mb : Mailbox)
    (messages currentUID : Z) (progress : Progress) :
  triple (λ w, faults w = [] ∧ ∃ row, progress_row w = Some row)
    (batch_body unicode ParseAddress config mb messages currentUID progress)
    (λ p w, faults w = [] ∧ progress_row w = Some p).
Proof.
  intros w (Hf & row & Hrow).
  assert (Hclean : clean (Some row) (fetched w) w) by done.
  destruct (snd (Fetch mb currentUID (batch_end config messages currentUID)))
    as [err|] eqn:Hfetch.
  - destruct (batch_body_fetch_failed row (fetched w) config mb messages
                currentUID progress err Hfetch w Hclean)
      as (-> & Hf' & Hrow' & _).
    by split.
  - destruct (batch_body_fetched row (fetched w) config mb messages
                currentUID progress Hfetch w Hclean)
      as (-> & Hf' & Hrow' & _).
    by split.
Qed.

Lemma batch_loop_saved (config : Config) (mb : Mailbox) (messages : Z)
    (fuel : nat) :
  ∀ currentUID progress,
    triple (λ w, faults w = [] ∧ progress_row w = Some progress)
      (batch_loop unicode ParseAddress fuel config mb messages currentUID progress)
      (λ r w, faults w = [] ∧ progress_row w = Some (snd r)).
Proof.
  induction fuel as [|fuel IH]; intros currentUID progress; simpl;
    destruct (currentUID <=? messages); try by apply triple_ret.
  apply (triple_bind _ _ _
           (λ p w, faults w = [] ∧ progress_row w = Some p)).
  { intros w [Hf Hrow].
    apply (batch_body_saved config mb messages currentUID progress w).
    split; [done|by eexists]. }
  intros p. apply IH.
Qed.

(** So does a loop of at least one pass, whatever row it started from. *)
Lemma batch_loop_saves_first (config : Config) (mb : Mailbox)
    (messages currentUID : Z) (progress : Progress) (fuel : nat) :
  currentUID ≤ messages →
  triple (λ w, faults w = [] ∧ ∃ row, progress_row w = Some row)
    (batch_loop unicode ParseAddress (S fuel) config mb messages currentUID
       progress)
    (λ r w, faults w = [] ∧ progress_row w = Some (snd r)).
Proof.
  intros Hle. rewrite batch_loop_step by done.
  eapply triple_bind; [apply batch_body_saved|]. intros p.
  apply batch_loop_saved.
Qed.

(** Whatever fails, the loop writes no other total than the one of its
    own checkpoint. *)
Lemma insensitive_stored_total (old new : Z) :
  insensitive (stored_total_among old new).
Proof. by split. Qed.

Lemma saveProgress_stored_total (old new : Z) (progress : Progress) :
  TotalMessages progress = new →
  triple (stored_total_among old new) (saveProgress progress)
    (λ _, stored_total_among old new).
Proof.
  intros Hnew w (q & Hrow & Hq). unfold saveProgress. run_m.
  destruct (hd false (faults w)); simpl; open_world.
  - by exists q.
  - rewrite Hrow. simpl. exists progress. split; [done|by right].
Qed.

Lemma batch_body_stored_total (old new : Z) (config : Config) (mb : Mailbox)
    (messages currentUID : Z) (progress : Progress) :
  TotalMessages progress = new →
  triple (stored_total_among old new)
    (batch_body unicode ParseAddress config mb messages currentUID progress)
    (λ p w, stored_total_among old new w ∧ TotalMessages p = new).
Proof.
  intros Hnew. pose proof (insensitive_stored_total old new) as HI.
  unfold batch_body.
  apply (triple_bind _ _ _ (λ _, stored_total_among old new)).
  { intros w Hw. unfold processBatch. run_m.
    by destruct (snd (Fetch mb currentUID _)). }
  intros r. destruct (snd r).
  - eapply triple_bind; [by apply triple_log_event|]. intros ?.
    eapply triple_bind; [by apply saveProgress_stored_total|].
    intros ?. apply triple_ret. by intros w Hw.
  - eapply triple_bind; [by apply filter_new_preserves|]. intros newSenders.
    eapply triple_bind.
    { apply store_new_preserves; [done|]. intros senders verbose.
      by apply saveSendersBatch_preserves. }
    intros ?. unfold update_progress.
    eapply triple_bind; [by apply saveProgress_stored_total|].
    intros err.
    apply (triple_bind _ _ _ (λ _, stored_total_among old new)).
    { destruct (is_nil err); [by apply triple_ret|by apply triple_log_event]. }
    intros ?. apply triple_ret. by intros w Hw.
Qed.

Lemma batch_loop_stored_total (old new : Z) (config : Config) (mb : Mailbox)
    (messages : Z) (fuel : nat) :
  ∀ currentUID progress,
    TotalMessages progress = new →
    triple (stored_total_among old new)
      (batch_loop unicode ParseAddress fuel config mb messages currentUID progress)
      (λ _, stored_total_among old new).
Proof.
  induction fuel as [|fuel IH]; intros currentUID progress Hnew; simpl;
    destruct (currentUID <=? messages); try by apply triple_ret.
  eapply triple_bind; [by apply batch_body_stored_total|]. intros p.
  apply (triple_assume _ (TotalMessages p = new) (stored_total_among old new));
    [by intros w [? ?]|].
  intros Hp. by apply IH.
Qed.

End WithParser.

End LoopFacts.

(** ** The claims about [scanEmailsBatch] *)

Module ScanFacts.
Import GoStrings Resolver Store Scan Invariants StoreFacts ScanInvariants LoopFacts.
Import Examples.

(** C8: a mailbox of 1247 messages, batches of 500, the zeroed checkpoint
    and no failure anywhere: the run fetches [1,500], [501,1000] and
    [1001,1247] in this order and returns [nil], and the checkpoint it
    leaves in the database has [LastProcessedUID = 1247] and
    [ProcessedCount = 1247]. *)
Theorem three_batches_for_1247_messages
    (unicode : Unicode) (ParseAddress : string → option MailAddress) (mb : Mailbox)
    (verbose : bool) (w : World) (fuel : nat) :
  dial_ok mb = true → login_ok mb = true → select_INBOX mb = Some 1247 →
  (∀ startUID endUID, snd (Fetch mb startUID endUID) = None) →
  clean (Some zero_progress) [] w →
  (3 ≤ fuel)%nat →
  let r := scanEmailsBatch unicode ParseAddress fuel
             {| BatchSize := 500; Verbose := verbose |} mb w in
  outcome (fst r) = Returned None
  ∧ fetched (snd r) = [(1, 500); (501, 1000); (1001, 1247)]
  ∧ progress_row (snd r) = Some (checkpoint 1247 1247 1247).
Proof.
  intros Hdial Hlogin Hselect Hfetch Hclean Hfuel.
  destruct fuel as [|[|[|fuel]]]; [lia..|].
  set (config := {| BatchSize := 500; Verbose := verbose |}).
  assert (Hrun : triple (clean (Some zero_progress) [])
            (scanEmailsBatch unicode ParseAddress (S (S (S fuel))) config mb)
            (λ e w', e = scan_end (Returned None) (Some (checkpoint 1247 1247 1247))
                     ∧ clean (Some (checkpoint 1247 1247 1247))
                         [(1, 500); (501, 1000); (1001, 1247)] w')).
  { apply (scanEmailsBatch_clean unicode ParseAddress zero_progress [] _ config mb 1247
             true); try done.
    change (wrap32 (LastProcessedUID zero_progress + 1)) with 1.
    rewrite batch_loop_step by lia.
    eapply triple_bind_eq; [apply batch_body_fetched, Hfetch|].
    change (wrap32 (1 + wrap32 (BatchSize config))) with 501.
    rewrite batch_loop_step by lia.
    eapply triple_bind_eq; [apply batch_body_fetched, Hfetch|].
    change (wrap32 (501 + wrap32 (BatchSize config))) with 1001.
    rewrite batch_loop_step by lia.
    eapply triple_bind_eq; [apply batch_body_fetched, Hfetch|].
    change (wrap32 (1001 + wrap32 (BatchSize config))) with 1501.
    rewrite batch_loop_done by lia.
    by apply triple_ret. }
  destruct (Hrun w Hclean) as (He & _ & Hp & Hf).
  simpl. rewrite He. by repeat split.
Qed.

Lemma three_batches_for_1247_messages_witness :
  let r := scanEmailsBatch example_unicode example_ParseAddress 3 config_500
      steady_mailbox
             initialised_world in
  outcome (fst r) = Returned None
  ∧ fetched (snd r) = [(1, 500); (501, 1000); (1001, 1247)]
  ∧ progress_row (snd r) = Some (checkpoint 1247 1247 1247).
Proof.
  exact (three_batches_for_1247_messages example_unicode example_ParseAddress
      steady_mailbox
           false initialised_world 3 eq_refl eq_refl eq_refl
           (λ _ _, eq_refl) (conj eq_refl (conj eq_refl eq_refl)) (le_n 3)).
Defined.

(** C1, as the code has it.  Batch 2 of 3 fails at fetch: right after it
    the stored checkpoint is at 500 and batch 3 is fetched all the same;
    but batch 3 then moves the stored checkpoint to 1247, so that the next
    run finds nothing to do and fetches nothing: the range 501..1000 is not
    fetched again. *)
Theorem failed_batch_is_skipped_for_good
    (unicode : Unicode) (ParseAddress : string → option MailAddress) (mb : Mailbox)
    (verbose : bool) (w : World) (fuel : nat) :
  dial_ok mb = true → login_ok mb = true → select_INBOX mb = Some 1247 →
  snd (Fetch mb 1 500) = None →
  snd (Fetch mb 501 1000) = Some FetchError →
  snd (Fetch mb 1001 1247) = None →
  clean (Some zero_progress) [] w →
  (3 ≤ fuel)%nat →
  let config := {| BatchSize := 500; Verbose := verbose |} in
  let after_two := scanEmailsBatch unicode ParseAddress 2 config mb w in
  let first := scanEmailsBatch unicode ParseAddress fuel config mb w in
  let second := scanEmailsBatch unicode ParseAddress fuel config mb (snd first) in
  (outcome (fst after_two) = Running
   ∧ fetched (snd after_two) = [(1, 500); (501, 1000)]
   ∧ progress_row (snd after_two) = Some (checkpoint 500 1247 500))
  ∧ (outcome (fst first) = Returned None
     ∧ fetched (snd first) = [(1, 500); (501, 1000); (1001, 1247)]
     ∧ progress_row (snd first) = Some (checkpoint 1247 1247 1247))
  ∧ (outcome (fst second) = Returned None
     ∧ fetched (snd second) = fetched (snd first)
     ∧ progress_row (snd second) = progress_row (snd first)).
Proof.
  intros Hdial Hlogin Hselect H1 H2 H3 Hclean Hfuel.
  destruct fuel as [|[|[|fuel]]]; [lia..|].
  set (config := {| BatchSize := 500; Verbose := verbose |}).
  assert (Htwo : triple (clean (Some zero_progress) [])
            (scanEmailsBatch unicode ParseAddress 2 config mb)
            (λ e w', e = scan_end Running (Some (checkpoint 500 1247 500))
                     ∧ clean (Some (checkpoint 500 1247 500))
                         [(1, 500); (501, 1000)] w')).
  { apply (scanEmailsBatch_clean unicode ParseAddress zero_progress [] _ config mb 1247
             false); try done.
    change (wrap32 (LastProcessedUID zero_progress + 1)) with 1.
    rewrite batch_loop_step by lia.
    eapply triple_bind_eq; [apply batch_body_fetched, H1|].
    change (wrap32 (1 + wrap32 (BatchSize config))) with 501.
    rewrite batch_loop_step by lia.
    eapply triple_bind_eq;
      [by apply (batch_body_fetch_failed unicode ParseAddress _ _ config mb 1247 501 _
                   FetchError H2)|].
    change (wrap32 (501 + wrap32 (BatchSize config))) with 1001.
    rewrite batch_loop_out_of_fuel by lia.
    by apply triple_ret. }
  assert (Hrun : triple (clean (Some zero_progress) [])
            (scanEmailsBatch unicode ParseAddress (S (S (S fuel))) config mb)
            (λ e w', e = scan_end (Returned None) (Some (checkpoint 1247 1247 1247))
                     ∧ clean (Some (checkpoint 1247 1247 1247))
                         [(1, 500); (501, 1000); (1001, 1247)] w')).
  { apply (scanEmailsBatch_clean unicode ParseAddress zero_progress [] _ config mb 1247
             true); try done.
    change (wrap32 (LastProcessedUID zero_progress + 1)) with 1.
    rewrite batch_loop_step by lia.
    eapply triple_bind_eq; [apply batch_body_fetched, H1|].
    change (wrap32 (1 + wrap32 (BatchSize config))) with 501.
    rewrite batch_loop_step by lia.
    eapply triple_bind_eq;
      [by apply (batch_body_fetch_failed unicode ParseAddress _ _ config mb 1247 501 _
                   FetchError H2)|].
    change (wrap32 (501 + wrap32 (BatchSize config))) with 1001.
    rewrite batch_loop_step by lia.
    eapply triple_bind_eq; [apply batch_body_fetched, H3|].
    change (wrap32 (1001 + wrap32 (BatchSize config))) with 1501.
    rewrite batch_loop_done by lia.
    by apply triple_ret. }
  destruct (Htwo w Hclean) as (He2 & _ & Hp2 & Hf2).
  destruct (Hrun w Hclean) as (He & Hq & Hp & Hf).
  simpl. split; [by rewrite He2|]. split; [by rewrite He|].
  set (w1 := snd (scanEmailsBatch unicode ParseAddress (S (S (S fuel)))
      config mb w)) in *.
  assert (Hload : fst (loadProgress w1) = Some (checkpoint 1247 1247 1247)).
  { by destruct (loadProgress_clean (checkpoint 1247 1247 1247) _ eq_refl w1
                   (conj Hq (conj Hp Hf))). }
  destruct (scanEmailsBatch_idle unicode ParseAddress (S (S (S fuel))) config
      mb w1 _ 1247
              Hload Hdial Hlogin Hselect) as [(Ho & _ & Hrow & Hfetched) _].
  { right. reflexivity. }
  by repeat split.
Qed.

Lemma failed_batch_is_skipped_for_good_witness :
  let first := scanEmailsBatch example_unicode example_ParseAddress 3
      config_500 flaky_mailbox
                 initialised_world in
  let second := scanEmailsBatch example_unicode example_ParseAddress 3
      config_500 flaky_mailbox
                  (snd first) in
  progress_row (snd first) = Some (checkpoint 1247 1247 1247)
  ∧ fetched (snd second) = [(1, 500); (501, 1000); (1001, 1247)].
Proof.
  destruct (failed_batch_is_skipped_for_good example_unicode
      example_ParseAddress flaky_mailbox
              false initialised_world 3 eq_refl eq_refl eq_refl
              eq_refl eq_refl eq_refl (conj eq_refl (conj eq_refl eq_refl))
              (le_n 3)) as (_ & (_ & Hf & Hp) & (_ & Hf2 & _)).
  split; [exact Hp|]. exact (eq_trans Hf2 Hf).
Defined.

(** C5: when the start position [LastProcessedUID + 1], computed in
    [uint32] as the code does, is beyond the message count, the run returns
    [nil] without fetching a range and without writing to the database: no
    sender is added and the stored checkpoint, [LastProcessedUID] included,
    is what it was. *)
Theorem caught_up_run_does_nothing
    (unicode : Unicode) (ParseAddress : string → option MailAddress) (fuel : nat)
    (config : Config) (mb : Mailbox) (w : World) (p : Progress)
    (messages : Z) :
  fst (loadProgress w) = Some p →
  dial_ok mb = true → login_ok mb = true → select_INBOX mb = Some messages →
  wrap32 (LastProcessedUID p + 1) > messages →
  let r := scanEmailsBatch unicode ParseAddress fuel config mb w in
  outcome (fst r) = Returned None
  ∧ senders_table (snd r) = senders_table w
  ∧ progress_row (snd r) = progress_row w
  ∧ fetched (snd r) = fetched w.
Proof.
  intros Hload Hdial Hlogin Hselect Hstart.
  by destruct (scanEmailsBatch_idle unicode ParseAddress fuel config mb w p messages
                 Hload Hdial Hlogin Hselect (or_intror Hstart)) as [Hzero _].
Qed.

Lemma caught_up_run_does_nothing_witness :
  let r := scanEmailsBatch example_unicode example_ParseAddress 3 config_500
      steady_mailbox
             finished_world in
  outcome (fst r) = Returned None
  ∧ senders_table (snd r) = senders_table finished_world
  ∧ progress_row (snd r) = progress_row finished_world
  ∧ fetched (snd r) = fetched finished_world.
Proof.
  exact (caught_up_run_does_nothing example_unicode example_ParseAddress 3 config_500
           steady_mailbox finished_world (checkpoint 1247 1247 1247) 1247
           eq_refl eq_refl eq_refl eq_refl eq_refl).
Defined.

(** Two runs in a row on the same mailbox: the second one adds no sender,
    fetches nothing and leaves the checkpoint where it is. *)
Example second_run_is_idle :
  let first := scanEmailsBatch example_unicode example_ParseAddress 5
      config_500 steady_mailbox
                 initialised_world in
  let second := scanEmailsBatch example_unicode example_ParseAddress 5 config_500
                  steady_mailbox (snd first) in
  outcome (fst second) = Returned None
  ∧ senders_table (snd second) = senders_table (snd first)
  ∧ progress_row (snd second) = progress_row (snd first)
  ∧ fetched (snd second) = fetched (snd first).
Proof. vm_compute. by repeat split. Qed.

(** The start position is a [uint32]: from the largest value it wraps
    around to 0, and the run then starts over with the range from 0. *)
Example start_position_wraps_around :
  wrap32 (4294967295 + 1) = 0
  ∧ fetched (snd (scanEmailsBatch example_unicode example_ParseAddress 5 config_500
                    small_mailbox world_at_uint32_max)) = [(0, 6)].
Proof. vm_compute. by split. Qed.

(** C9, as the code has it: once [Select] has told the number of
    messages, the [progress] of the run carries it as [TotalMessages]; the
    row of [scan_progress] gets it only with a checkpoint save of the batch
    loop.  A run that stops at once, for an empty mailbox or because the
    scan has caught up, returns [nil] and leaves the stored row as it was.
    A run that makes at least one pass of the loop, when no database call
    fails, ends with its own checkpoint stored, total included.  Whatever
    fails, the stored total is the old one or the new one. *)
Theorem stored_total_waits_for_checkpoint_save
    (unicode : Unicode) (ParseAddress : string → option MailAddress) (fuel : nat)
    (config : Config) (mb : Mailbox) (w : World) (p : Progress)
    (messages : Z) :
  fst (loadProgress w) = Some p →
  dial_ok mb = true → login_ok mb = true → select_INBOX mb = Some messages →
  let r := scanEmailsBatch unicode ParseAddress fuel config mb w in
  (∃ p', progress_at_exit (fst r) = Some p' ∧ TotalMessages p' = messages)
  ∧ (messages = 0 ∨ wrap32 (LastProcessedUID p + 1) > messages →
     outcome (fst r) = Returned None
     ∧ progress_at_exit (fst r) = Some (set_TotalMessages messages p)
     ∧ progress_row (snd r) = progress_row w)
  ∧ (messages ≠ 0 → wrap32 (LastProcessedUID p + 1) ≤ messages →
     faults w = [] → (1 ≤ fuel)%nat →
     ∃ q, progress_row (snd r) = Some q
          ∧ progress_at_exit (fst r) = Some q
          ∧ TotalMessages q = messages)
  ∧ ∃ q, progress_row (snd r) = Some q
         ∧ (TotalMessages q = TotalMessages p
            ∨ TotalMessages q = messages).
Proof.
  intros Hload Hdial Hlogin Hselect. simpl.
  pose proof (loadProgress_row w p Hload) as Hrow.
  pose proof (loadProgress_same_data w) as (_ & Hp & _ & Hfaults).
  assert (Hidle : messages = 0 ∨ wrap32 (LastProcessedUID p + 1) > messages →
    outcome (fst (scanEmailsBatch unicode ParseAddress fuel config mb w))
    = Returned None
    ∧ progress_at_exit (fst (scanEmailsBatch unicode ParseAddress fuel config mb w))
      = Some (set_TotalMessages messages p)
    ∧ progress_row (snd (scanEmailsBatch unicode ParseAddress fuel config mb w))
      = progress_row w).
  { intros Hcase.
    destruct (scanEmailsBatch_idle unicode ParseAddress fuel config mb w p
                messages Hload Hdial Hlogin Hselect Hcase)
      as [(Ho & _ & Hsame & _) Hexit].
    by repeat split. }
  assert (Hstop : messages = 0 ∨ wrap32 (LastProcessedUID p + 1) > messages →
    (∃ p', progress_at_exit
             (fst (scanEmailsBatch unicode ParseAddress fuel config mb w))
           = Some p' ∧ TotalMessages p' = messages)
    ∧ ∃ q, progress_row
             (snd (scanEmailsBatch unicode ParseAddress fuel config mb w))
           = Some q
           ∧ (TotalMessages q = TotalMessages p
              ∨ TotalMessages q = messages)).
  { intros Hcase. destruct (Hidle Hcase) as (_ & Hexit & Hsame). split.
    - rewrite Hexit. by eexists.
    - exists p. split; [|by left]. by rewrite Hsame, <- Hp. }
  destruct (Z.eq_dec messages 0) as [Hzero|Hnonzero].
  { destruct (Hstop (or_introl Hzero)) as [Hmem Hdisk].
    split; [exact Hmem|]. split; [exact Hidle|]. split; [done|exact Hdisk]. }
  destruct (Z_gt_le_dec (wrap32 (LastProcessedUID p + 1)) messages)
    as [Hgt|Hle].
  { destruct (Hstop (or_intror Hgt)) as [Hmem Hdisk].
    split; [exact Hmem|]. split; [exact Hidle|].
    split; [intros; lia|exact Hdisk]. }
  split; [|split; [exact Hidle|]]; revert Hidle Hstop; intros _ _;
    unfold scanEmailsBatch;
    rewrite bind_run, Hload, Hdial, Hlogin, Hselect; simpl;
    (destruct (Z.eqb_spec messages 0) as [|_]; [done|]);
    (destruct (Z.gtb_spec (wrap32 (LastProcessedUID p + 1)) messages)
       as [|_]; [lia|]);
    rewrite bind_run; simpl; rewrite bind_run.
  - match goal with
    | |- context [batch_loop unicode ParseAddress fuel config mb messages
                    ?c ?q ?w1] =>
        pose proof (batch_loop_total unicode ParseAddress config mb messages
                      fuel c q w1 I) as Htotal;
        destruct (batch_loop unicode ParseAddress fuel config mb messages
                    c q w1) as [[finished p'] w2]
    end.
    simpl in Htotal.
    destruct finished; simpl; eexists; (split; [reflexivity|exact Htotal]).
  - match goal with
    | |- context [batch_loop unicode ParseAddress fuel config mb messages
                    ?c ?q ?w1] =>
        pose proof (batch_loop_total unicode ParseAddress config mb messages
                      fuel c q w1 I) as Htotal;
        assert (Hw1 : stored_total_among (TotalMessages p) messages w1)
          by (exists p; split; [exact Hrow|by left]);
        pose proof (batch_loop_stored_total unicode ParseAddress
                      (TotalMessages p) messages config mb messages fuel
                      c q eq_refl w1 Hw1) as Hamong;
        assert (Hsaved : faults w = [] → (1 ≤ fuel)%nat →
                  progress_row
                    (snd (batch_loop unicode ParseAddress fuel config mb
                            messages c q w1))
                  = Some (snd (fst (batch_loop unicode ParseAddress fuel
                                      config mb messages c q w1))));
        [|destruct (batch_loop unicode ParseAddress fuel config mb messages
                      c q w1) as [[finished p'] w2]]
    end.
    { intros Hclean Hfuel. destruct fuel as [|fuel']; [lia|].
      apply batch_loop_saves_first; [exact Hle|].
      split; [exact (Hfaults Hclean)|by exists p]. }
    simpl in Htotal, Hamong, Hsaved.
    destruct finished; simpl;
      (split; [intros _ _ Hclean Hfuel; exists p';
               by rewrite (Hsaved Hclean Hfuel)|exact Hamong]).
Qed.

Lemma stored_total_waits_for_checkpoint_save_witness :
  let r := scanEmailsBatch example_unicode example_ParseAddress 3 config_500
             steady_mailbox initialised_world in
  ∃ q, progress_row (snd r) = Some q
       ∧ progress_at_exit (fst r) = Some q
       ∧ TotalMessages q = 1247.
Proof.
  exact (proj1 (proj2 (proj2
           (stored_total_waits_for_checkpoint_save example_unicode
              example_ParseAddress 3 config_500 steady_mailbox
              initialised_world zero_progress 1247
              eq_refl eq_refl eq_refl eq_refl)))
           ltac:(discriminate) ltac:(discriminate) eq_refl (le_S _ _ (le_S _
               _ (le_n 1)))).
Defined.

(** The total is not stored right after [Select].  The database holds
    the checkpoint of a complete scan of 1247 messages.  With the mailbox
    emptied since, the run sees 0 messages and returns [nil]; with the
    mailbox cut down to six messages, the run finds the scan caught up and
    returns [nil]; both times the row of [scan_progress] still says
    1247. *)
Lemma zero_work_run_keeps_stale_total :
  let emptied := scanEmailsBatch example_unicode example_ParseAddress 3
                   config_500 empty_mailbox finished_world in
  let shrunk := scanEmailsBatch example_unicode example_ParseAddress 3
                  config_500 small_mailbox finished_world in
  (select_INBOX empty_mailbox = Some 0
   ∧ outcome (fst emptied) = Returned None
   ∧ progress_at_exit (fst emptied) = Some (checkpoint 1247 0 1247)
   ∧ progress_row (snd emptied) = Some (checkpoint 1247 1247 1247)
   ∧ ¬ (∃ q, progress_row (snd emptied) = Some q ∧ TotalMessages q = 0))
  ∧ (select_INBOX small_mailbox = Some 6
     ∧ outcome (fst shrunk) = Returned None
     ∧ progress_at_exit (fst shrunk) = Some (checkpoint 1247 6 1247)
     ∧ progress_row (snd shrunk) = Some (checkpoint 1247 1247 1247)
     ∧ ¬ (∃ q, progress_row (snd shrunk) = Some q ∧ TotalMessages q = 6)).
Proof.
  vm_compute.
  split; repeat split; intros (q & [= <-] & Hq); discriminate.
Qed.

(** C4: the addresses of the table [senders] stay distinct.  One call of
    [saveSendersBatch] keeps them distinct for any list of senders, checked
    beforehand or not, with repetitions or not, and whichever database calls
    fail; so does every sequence of invocations of the program, whatever
    the mailboxes deliver; and an address therefore never has more than one
    row. *)
Theorem sender_addresses_stay_unique
    (unicode : Unicode) (ParseAddress : string → option MailAddress) (w : World) :
  unique_emails w →
  (∀ senders verbose,
     unique_emails (snd (saveSendersBatch senders verbose w)))
  ∧ (∀ runs,
       unique_emails (invocations unicode ParseAddress runs w)
       ∧ ∀ email,
           count_email email
             (senders_table (invocations unicode ParseAddress runs w)) ≤ 1).
Proof.
  intros Hu. split.
  - intros senders verbose. by apply saveSendersBatch_unique.
  - intros runs.
    pose proof (invocations_unique unicode ParseAddress runs w Hu) as Hruns.
    split; [exact Hruns|].
    intros email. by apply count_email_unique.
Qed.

Lemma sender_addresses_stay_unique_witness :
  unique_emails fresh_world
  ∧ unique_emails (invocations example_unicode example_ParseAddress
      example_runs fresh_world).
Proof.
  assert (H0 : unique_emails fresh_world) by apply NoDup_nil_2.
  split; [exact H0|].
  exact (proj1 (proj2 (sender_addresses_stay_unique example_unicode example_ParseAddress
                         fresh_world H0) example_runs)).
Defined.

(** In the example runs the second run takes both senders of the batch
    [501,1000] for new, because the queries of [emailExists] fail; the
    table still has one row for each. *)
Example example_runs_store_each_sender_once :
  let w := invocations example_unicode example_ParseAddress example_runs fresh_world in
  senders_table w
  = [ {| FullName := "Carol Jones"; Email := "carol.jones@y.org" |};
      {| FullName := "Bob"; Email := "a@x.com" |} ]
  ∧ LogBatchSaved 0 2 ∈ log w
  ∧ progress_row w = Some (checkpoint 1247 1247 1247).
Proof.
  vm_compute. split; [reflexivity|]. split; [|reflexivity].
  repeat first [apply list_elem_of_here | apply list_elem_of_further].
Qed.

(** Inserting a sender twice in one batch, without any check before, and
    again in a later batch leaves one row. *)
Example repeated_sender_is_stored_once :
  let ann := {| FullName := "Ann Lee"; Email := "ann.lee@x.com" |} in
  let ann' := {| FullName := "A. Lee"; Email := "ann.lee@x.com" |} in
  let w1 := snd (saveSendersBatch [ann; ann'] false fresh_world) in
  let w2 := snd (saveSendersBatch [ann'; ann] true w1) in
  senders_table w1 = [ann] ∧ senders_table w2 = [ann].
Proof. vm_compute. by split. Qed.




End ScanFacts.

(** ** [parseFlags]: the batch size and the folder name *)

Module FlagsFacts.
Import GoStrings Scan Flags.

(** X1: whatever batch size is given on the command line, the one
    [parseFlags] leaves in the configuration lies between 100 and 2000; a
    size in that range is kept, any other becomes 500. *)
Theorem batch_size_after_parseFlags (b : Z) :
  100 ≤ clamp_BatchSize b ≤ 2000
  ∧ (100 ≤ b ≤ 2000 → clamp_BatchSize b = b)
  ∧ (b < 100 ∨ 2000 < b → clamp_BatchSize b = 500)
  ∧ clamp_BatchSize (clamp_BatchSize b) = clamp_BatchSize b.
Proof.
  assert (Hkept : ∀ x, 100 ≤ x ≤ 2000 → clamp_BatchSize x = x).
  { intros x Hx. unfold clamp_BatchSize.
    destruct (Z.ltb_spec x 100), (Z.gtb_spec x 2000); simpl; lia. }
  pose proof (ScanInvariants.clamp_BatchSize_range b) as Hrange.
  split; [exact Hrange|]. split; [apply Hkept|]. split; [|by apply Hkept].
  unfold clamp_BatchSize.
  destruct (Z.ltb_spec b 100), (Z.gtb_spec b 2000); simpl; lia.
Qed.

Lemma occurs_append (c : ascii) (a b : string) :
  occurs c (a +:+ b) = occurs c a || occurs c b.
Proof.
  induction a as [|x a IH]; [reflexivity|].
  change (String x a +:+ b) with (String x (a +:+ b)). simpl.
  by rewrite IH, orb_assoc.
Qed.

(** A byte of [ReplaceAll s old new] comes from [new] or is a byte of [s]
    other than [old]. *)
Lemma occurs_ReplaceAll (c old : ascii) (new s : string) :
  occurs c (ReplaceAll s old new) = true →
  occurs c new = true ∨ (c ≠ old ∧ occurs c s = true).
Proof.
  induction s as [|x s IH]; simpl; [discriminate|].
  destruct (Ascii.eqb_spec x old) as [->|Hne].
  - rewrite occurs_append. intros [Hnew|Hrest]%orb_true_iff; [by left|].
    destruct (IH Hrest) as [?|[? Hs]]; [by left|right].
    split; [done|]. by rewrite Hs, orb_true_r.
  - simpl. intros [Hx|Hrest]%orb_true_iff.
    + right. apply Ascii.eqb_eq in Hx. subst x. split; [done|].
      by rewrite Ascii.eqb_refl.
    + destruct (IH Hrest) as [?|[? Hs]]; [by left|right].
      split; [done|]. by rewrite Hs, orb_true_r.
Qed.

(** X2: the folder name made from a user name has no [@], no [.] and no
    [+] in it. *)
Theorem safeUsername_has_no_special_byte (username : string) :
  occurs "@"%char (safeUsername username) = false
  ∧ occurs "."%char (safeUsername username) = false
  ∧ occurs "+"%char (safeUsername username) = false.
Proof.
  unfold safeUsername.
  repeat split; apply not_true_is_false; intros H3;
    apply occurs_ReplaceAll in H3 as [H3|[Hne3 H2]]; try discriminate;
    apply occurs_ReplaceAll in H2 as [H2|[Hne2 H1]]; try discriminate;
    try done;
    apply occurs_ReplaceAll in H1 as [H1|[Hne1 H0]]; try discriminate;
    done.
Qed.

Lemma ReplaceAll_append (old : ascii) (new a b : string) :
  ReplaceAll (a +:+ b) old new = ReplaceAll a old new +:+ ReplaceAll b old new.
Proof.
  induction a as [|x a IH]; [reflexivity|].
  change (String x a +:+ b) with (String x (a +:+ b)). simpl.
  destruct (Ascii.eqb x old).
  - by rewrite IH, ResolverFacts.append_assoc.
  - by rewrite IH.
Qed.

Lemma ReplaceAll_cons_eq (old : ascii) (new rest : string) :
  ReplaceAll (String old rest) old new = new +:+ ReplaceAll rest old new.
Proof. simpl. by rewrite Ascii.eqb_refl. Qed.

Lemma ReplaceAll_cons_ne (c old : ascii) (new rest : string) :
  c ≠ old →
  ReplaceAll (String c rest) old new = String c (ReplaceAll rest old new).
Proof. intros Hne. simpl. by destruct (Ascii.eqb_spec c old). Qed.

(** X3: the folder name does not tell [.] from [_]: a user name and the
    same name with every [.] written as [_] get the same folder, as
    [a.b@x.com] and [a_b@x_com] do. *)
Theorem safeUsername_merges_dot_and_underscore (username : string) :
  safeUsername (ReplaceAll username "."%char "_") = safeUsername username
  ∧ safeUsername "a.b@x.com" = safeUsername "a_b@x_com".
Proof.
  split; [|reflexivity].
  unfold safeUsername. f_equal.
  induction username as [|c rest IH]; [reflexivity|].
  destruct (Ascii.eqb_spec c "."%char) as [->|Hdot].
  - rewrite ReplaceAll_cons_eq, (ReplaceAll_cons_ne "."%char "@"%char) by done.
    rewrite ReplaceAll_cons_eq.
    rewrite !ReplaceAll_append, IH. reflexivity.
  - rewrite (ReplaceAll_cons_ne c "."%char) by done.
    destruct (Ascii.eqb_spec c "@"%char) as [->|Hat].
    + rewrite !ReplaceAll_cons_eq, !ReplaceAll_append, IH. reflexivity.
    + rewrite !(ReplaceAll_cons_ne c "@"%char) by done.
      rewrite !(ReplaceAll_cons_ne c "."%char) by done.
      by rewrite IH.
Qed.

End FlagsFacts.

(** ** More about the store *)

Module StoreMore.
Import GoStrings Resolver Store Scan Invariants RunSpec StoreFacts ScanInvariants.
Import Examples.

(** X4: [initDB] never touches the rows there are: the senders stay, and a
    progress row that exists is kept as it is.  When [initDB] returns [nil]
    there is a progress row afterwards, the zeroed one if there was none;
    when it returns an error the progress row is as before.  On a database
    without failures a second [initDB] changes nothing. *)
Theorem initDB_keeps_existing_rows (w : World) :
  senders_table (snd (initDB w)) = senders_table w
  ∧ (∀ p, progress_row w = Some p → progress_row (snd (initDB w)) = Some p)
  ∧ (fst (initDB w) = None → progress_row w = None →
     progress_row (snd (initDB w)) = Some zero_progress)
  ∧ (fst (initDB w) ≠ None → progress_row (snd (initDB w)) = progress_row w)
  ∧ (faults w = [] →
     fst (initDB w) = None ∧ initDB (snd (initDB w)) = (None, snd (initDB w))).
Proof.
  destruct w as [rows row fs l ranges].
  unfold initDB. run_m. open_world.
  destruct fs as [|[] [|[] [|[] [|[] fs]]]]; simpl;
    destruct row; simpl; repeat split; try done; intros; try done;
    try discriminate.
Qed.

(** X5: what [saveProgress] writes, [loadProgress] reads back, when the
    row exists and neither call fails.  On a database without the row
    [saveProgress] returns [nil] all the same, and stores nothing:
    [loadProgress] then fails. *)
Theorem saveProgress_then_loadProgress (p : Progress) (w : World) :
  hd false (faults w) = false →
  hd false (tl (faults w)) = false →
  fits_uint32 (LastProcessedUID p) && fits_uint32 (TotalMessages p)
    && fits_uint32 (ProcessedCount p) = true →
  fst (saveProgress p w) = None
  ∧ (progress_row w ≠ None →
     fst (loadProgress (snd (saveProgress p w))) = Some p)
  ∧ (progress_row w = None →
     fst (loadProgress (snd (saveProgress p w))) = None).
Proof.
  intros H1 H2 Hfits.
  destruct w as [rows row fs l ranges]. simpl in *.
  unfold saveProgress, loadProgress. run_m. open_world.
  rewrite H1. simpl. destruct row as [old|]; simpl; rewrite H2; simpl.
  - rewrite Hfits. by repeat split.
  - by repeat split.
Qed.

Lemma saveProgress_then_loadProgress_witness :
  fst (loadProgress (snd (saveProgress (checkpoint 500 1247 500)
                            initialised_world)))
  = Some (checkpoint 500 1247 500).
Proof.
  exact (proj1 (proj2 (saveProgress_then_loadProgress
                         (checkpoint 500 1247 500) initialised_world
                         eq_refl eq_refl eq_refl))
           ltac:(discriminate)).
Defined.

(** X6: [saveSendersBatch] with an empty list does nothing at all, not
    even a call into the database; and when it returns an error ([Begin],
    [Prepare] or [Commit] failed) the table is what it was before.  It
    never touches the progress row. *)
Theorem saveSendersBatch_error_leaves_table (senders : list EmailSender)
    (verbose : bool) (w : World) :
  saveSendersBatch [] verbose w = (None, w)
  ∧ (fst (saveSendersBatch senders verbose w) ≠ None →
     senders_table (snd (saveSendersBatch senders verbose w))
     = senders_table w)
  ∧ progress_row (snd (saveSendersBatch senders verbose w)) = progress_row w.
Proof.
  split; [reflexivity|]. split.
  - set (I := λ w', senders_table w' = senders_table w).
    assert (HI : insensitive I) by (by split).
    assert (Hkeep : ∀ A (a : A), triple I (ret a)
              (λ r w', senders_table w' = senders_table w)).
    { intros A a. by apply triple_ret. }
    cut (triple I (saveSendersBatch senders verbose)
           (λ r w', r ≠ None → senders_table w' = senders_table w)).
    { intros Ht. by apply Ht. }
    unfold saveSendersBatch.
    destruct senders as [|sender rest]; [by apply triple_ret|].
    set (all := sender :: rest). clearbody all.
    eapply triple_bind; [by apply triple_log_event|]. intros ?.
    eapply triple_bind; [by apply triple_storage_call|]. intros [|].
    { eapply triple_bind; [by apply triple_log_event|]. intros ?.
      by apply triple_ret. }
    eapply triple_bind; [by apply (triple_gets _ _ (λ _, I))|]. intros tx0.
    eapply triple_bind; [by apply triple_storage_call|]. intros [|].
    { eapply triple_bind; [by apply triple_log_event|]. intros ?.
      by apply triple_ret. }
    eapply triple_bind; [by apply exec_inserts_preserves|]. intros r.
    eapply triple_bind; [by apply triple_storage_call|]. intros [|].
    { eapply triple_bind; [by apply triple_log_event|]. intros ?.
      by apply triple_ret. }
    apply (triple_bind _ _ _ (λ _ _, True)); [done|]. intros ?.
    apply (triple_bind _ _ _ (λ _ _, True)); [done|]. intros ?.
    by apply triple_ret.
  - by apply (saveSendersBatch_preserves
                (λ w', progress_row w' = progress_row w)).
Qed.

Lemma insert_or_ignore_prefix (rows : list EmailSender) (s : EmailSender) :
  rows `prefix_of` fst (insert_or_ignore rows s).
Proof.
  unfold insert_or_ignore.
  destruct (decide (Email s ∈ map Email rows)); simpl; [done|].
  by apply prefix_app_r.
Qed.

Lemma exec_inserts_prefix (verbose : bool) (senders : list EmailSender) :
  ∀ tx savedCount,
    triple (λ _, True) (exec_inserts verbose senders tx savedCount)
      (λ r _, tx `prefix_of` fst r).
Proof.
  induction senders as [|sender rest IH]; intros tx savedCount; simpl.
  - by apply triple_ret.
  - apply (triple_bind _ _ _ (λ _ _, True)); [done|]. intros [|].
    + apply (triple_bind _ _ _ (λ _ _, True)); [done|]. intros ?. apply IH.
    + pose proof (insert_or_ignore_prefix tx sender) as Hins.
      assert (Hrest : ∀ n, triple (λ _, True)
                (exec_inserts verbose rest (fst (insert_or_ignore tx sender)) n)
                (λ r _, tx `prefix_of` fst r)).
      { intros n w Hw. etrans; [exact Hins|]. by apply IH. }
      destruct (snd (insert_or_ignore tx sender) >? 0); [|apply Hrest].
      apply (triple_bind _ _ _ (λ _ _, True)); [done|]. intros ?.
      apply Hrest.
Qed.

(** A transaction only adds rows at the end of the table. *)
Lemma saveSendersBatch_prefix (rows : list EmailSender)
    (senders : list EmailSender) (verbose : bool) :
  triple (λ w, rows `prefix_of` senders_table w)
    (saveSendersBatch senders verbose)
    (λ _ w, rows `prefix_of` senders_table w).
Proof.
  set (I := λ w, rows `prefix_of` senders_table w).
  assert (HI : insensitive I) by (by split).
  unfold saveSendersBatch.
  destruct senders as [|sender rest]; [by apply triple_ret|].
  set (all := sender :: rest). clearbody all.
  eapply triple_bind; [by apply triple_log_event|]. intros ?.
  eapply triple_bind; [by apply triple_storage_call|]. intros [|].
  { eapply triple_bind; [by apply triple_log_event|]. intros ?.
    by apply triple_ret. }
  eapply triple_bind.
  { apply (triple_gets _ _ (λ tx0 w, I w ∧ rows `prefix_of` tx0)).
    by intros w Hw. }
  intros tx0.
  apply (triple_assume _ (rows `prefix_of` tx0) I); [by intros w [? ?]|].
  intros Htx.
  eapply triple_bind; [by apply triple_storage_call|]. intros [|].
  { eapply triple_bind; [by apply triple_log_event|]. intros ?.
    by apply triple_ret. }
  eapply triple_bind.
  { apply (triple_and _ _ (λ _, I) (λ r _, tx0 `prefix_of` fst r));
      [by apply exec_inserts_preserves|].
    intros w _. by apply (exec_inserts_prefix verbose all tx0 0 w). }
  intros r. simpl.
  apply (triple_assume _ (tx0 `prefix_of` fst r) I); [by intros w [? ?]|].
  intros Hr.
  eapply triple_bind; [by apply triple_storage_call|]. intros [|].
  { eapply triple_bind; [by apply triple_log_event|]. intros ?.
    by apply triple_ret. }
  eapply triple_bind.
  { apply (triple_modify _ _ (λ _, I)). intros w _. unfold I. simpl.
    by etrans. }
  intros ?.
  eapply triple_bind; [by apply triple_log_event|]. intros ?.
  by apply triple_ret.
Qed.

Lemma scan_stable_prefix (rows : list EmailSender) :
  scan_stable (λ w, rows `prefix_of` senders_table w).
Proof.
  split; [by split|]. split; [done|]. split; [done|].
  apply saveSendersBatch_prefix.
Qed.

(** X7: the table [senders] only grows at its end.  Whatever the program
    is run on, however often and with whichever failures, the rows there
    were stay where they were, with the names they had: a sender once stored
    is never removed and never renamed. *)
Theorem senders_are_append_only
    (unicode : Unicode) (ParseAddress : string → option MailAddress) (runs :
        list Invocation)
    (w : World) :
  senders_table w `prefix_of` senders_table (invocations unicode ParseAddress runs w)
  ∧ ∀ sender, sender ∈ senders_table w →
              sender ∈ senders_table (invocations unicode ParseAddress runs w).
Proof.
  assert (Hprefix : ∀ rows w',
    rows `prefix_of` senders_table w' →
    rows `prefix_of` senders_table (invocations unicode ParseAddress runs w')).
  { intros rows. unfold invocations.
    induction runs as [|i runs IH]; intros w' Hw'; simpl; [done|].
    apply IH. unfold invoke.
    assert (H0 : rows `prefix_of`
                 senders_table (with_faults (inv_faults i) w')) by done.
    pose proof (initDB_preserves _ (scan_stable_prefix rows) _ H0) as H1.
    destruct (initDB (with_faults (inv_faults i) w')) as [err w1].
    simpl in H1. destruct err; [done|].
    by apply (scanEmailsBatch_preserves unicode ParseAddress _
                (scan_stable_prefix rows)). }
  pose proof (Hprefix (senders_table w) w (reflexivity _)) as [k Hk].
  split; [by exists k|].
  intros sender Hin. rewrite Hk. apply elem_of_app. by left.
Qed.

(** X8: when its query does not fail, [emailExists] says exactly whether
    the table has a row with that address, and it changes nothing in the
    database. *)
Theorem emailExists_answers_membership (email : string) (w : World) :
  hd false (faults w) = false →
  fst (emailExists email w)
  = bool_decide (email ∈ map Email (senders_table w))
  ∧ senders_table (snd (emailExists email w)) = senders_table w
  ∧ progress_row (snd (emailExists email w)) = progress_row w
  ∧ faults (snd (emailExists email w)) = tl (faults w).
Proof.
  intros Hok. split; [by apply emailExists_no_fault|].
  unfold emailExists, query_count. run_m.
  by destruct (hd false (faults w)).
Qed.

Lemma emailExists_answers_membership_witness :
  fst (emailExists "ann.lee@x.com" (with_faults [] failing_world)) = true
  ∧ fst (emailExists "bob@y.org" (with_faults [] failing_world)) = false.
Proof.
  split.
  - exact (proj1 (emailExists_answers_membership "ann.lee@x.com"
                    (with_faults [] failing_world) eq_refl)).
  - reflexivity.
Defined.

End StoreMore.

(** ** [strings.ToLower] on ASCII strings *)

Module AsciiFacts.
Import GoStrings.

Lemma to_lower_idempotent (c : ascii) : to_lower (to_lower c) = to_lower c.
Proof. destruct c as [[] [] [] [] [] [] [] []]; reflexivity. Qed.

Lemma to_lower_keeps_ascii (c : ascii) :
  (code (to_lower c) <? 128)%N = (code c <? 128)%N.
Proof. destruct c as [[] [] [] [] [] [] [] []]; reflexivity. Qed.

Lemma ToLower_ascii_idempotent (s : string) :
  ToLower_ascii (ToLower_ascii s) = ToLower_ascii s.
Proof.
  induction s as [|c s IH]; simpl; [reflexivity|].
  by rewrite to_lower_idempotent, IH.
Qed.

Lemma is_ascii_ToLower_ascii (s : string) :
  is_ascii (ToLower_ascii s) = is_ascii s.
Proof.
  induction s as [|c s IH]; simpl; [reflexivity|].
  by rewrite to_lower_keeps_ascii, IH.
Qed.

(** On an ASCII string [strings.ToLower] stays in ASCII and is
    idempotent. *)
Lemma ToLower_of_ascii (unicode : Unicode) (s : string) :
  is_ascii s = true →
  is_ascii (ToLower unicode s) = true
  ∧ ToLower unicode (ToLower unicode s) = ToLower unicode s.
Proof.
  intros Hs. unfold ToLower. rewrite Hs.
  rewrite is_ascii_ToLower_ascii, Hs. split; [reflexivity|].
  apply ToLower_ascii_idempotent.
Qed.

End AsciiFacts.

(** ** More about [processBatch] *)

Module BatchMore.
Import GoStrings Resolver Store Scan BatchSpec BatchFacts AsciiFacts.


Section WithParser.

Variable unicode : Unicode.
Variable ParseAddress : string -> option MailAddress.



Lemma collect_key_is_email (msgs : list Message) (k : string)
    (sender : EmailSender) :
  (k, sender) ∈ map_to_list (collect unicode ParseAddress msgs) →
  Email sender = k.
Proof.
  intros Hin. apply elem_of_map_to_list in Hin.
  rewrite collect_lookup in Hin. by apply first_sighting_email in Hin.
Qed.

Lemma collect_senders_distinct (msgs : list Message) :
  NoDup (map Email
           (map snd (map_to_list (collect unicode ParseAddress msgs)))).
Proof.
  assert (Heq :
    map Email (map snd (map_to_list (collect unicode ParseAddress msgs)))
    = map fst (map_to_list (collect unicode ParseAddress msgs))).
  { rewrite map_map. apply map_ext_in. intros [k sender] Hin.
    apply list_elem_of_In in Hin. simpl. by apply collect_key_is_email in Hin. }
  rewrite Heq. apply NoDup_fst_map_to_list.
Qed.


End WithParser.

End BatchMore.

(** ** More about the batch loop *)

Module LoopMore.
Import GoStrings Resolver Store Scan Invariants RunSpec StoreFacts ScanInvariants.
Import LoopFacts Examples.

Lemma loadProgress_fits (w : World) (p : Progress) :
  fst (loadProgress w) = Some p →
  fits_uint32 (LastProcessedUID p) && fits_uint32 (TotalMessages p)
    && fits_uint32 (ProcessedCount p) = true.
Proof.
  unfold loadProgress. run_m.
  destruct (hd false (faults w)); simpl; [discriminate|]. open_world.
  destruct (progress_row w) as [q|]; simpl; [|discriminate].
  destruct (fits_uint32 (LastProcessedUID q) && fits_uint32 (TotalMessages q)
            && fits_uint32 (ProcessedCount q)) eqn:Hfits; simpl;
    [|discriminate].
  by intros [= <-].
Qed.

Lemma start_position_no_wrap (p : Progress) :
  fits_uint32 (LastProcessedUID p) && fits_uint32 (TotalMessages p)
    && fits_uint32 (ProcessedCount p) = true →
  LastProcessedUID p < 4294967295 →
  wrap32 (LastProcessedUID p + 1) = LastProcessedUID p + 1
  ∧ 0 ≤ LastProcessedUID p.
Proof.
  unfold fits_uint32, wrap32. intros Hfits Hlt.
  apply andb_true_iff in Hfits as [Hfits _].
  apply andb_true_iff in Hfits as [Hfits _].
  apply andb_true_iff in Hfits as [Hlo _]. apply Z.leb_le in Hlo.
  split; [|done]. apply Z.mod_small. lia.
Qed.

Lemma batch_end_no_wrap (config : Config) (messages currentUID : Z) :
  0 < BatchSize config →
  messages + BatchSize config < 4294967296 →
  0 ≤ currentUID ≤ messages →
  batch_end config messages currentUID
  = Z.min (currentUID + BatchSize config - 1) messages
  ∧ wrap32 (currentUID + wrap32 (BatchSize config))
    = currentUID + BatchSize config.
Proof.
  intros Hpos Hbound Hcur. unfold batch_end, wrap32.
  rewrite (Z.mod_small (BatchSize config)) by lia.
  rewrite !Z.mod_small by lia. split; [|done].
  destruct (Z.gtb_spec (currentUID + BatchSize config - 1) messages); lia.
Qed.

Lemma batch_ranges_bounds (batchSize messages : Z) (fuel : nat) :
  0 < batchSize →
  ∀ currentUID a b,
    (a, b) ∈ batch_ranges fuel batchSize messages currentUID →
    currentUID ≤ a ∧ a ≤ b ≤ messages.
Proof.
  intros Hpos. induction fuel as [|fuel IH]; intros currentUID a b; simpl.
  - intros Hin. by apply elem_of_nil in Hin.
  - destruct (Z.leb_spec currentUID messages) as [Hle|Hgt].
    + intros [Heq|Hin]%elem_of_cons.
      * injection Heq as -> ->. lia.
      * apply IH in Hin. lia.
    + intros Hin. by apply elem_of_nil in Hin.
Qed.

Section WithParser.

Variable unicode : Unicode.
Variable ParseAddress : string -> option MailAddress.

Lemma insensitive_fetched (ranges : list (Z * Z)) :
  insensitive (λ w, fetched w = ranges).
Proof. by split. Qed.

(** One pass of the loop asks the mailbox for one range, whatever fails. *)
Lemma batch_body_fetches (ranges : list (Z * Z)) (config : Config)
    (mb : Mailbox) (messages currentUID : Z) (progress : Progress) :
  triple (λ w, fetched w = ranges)
    (batch_body unicode ParseAddress config mb messages currentUID progress)
    (λ _ w, fetched w
            = ranges ++ [(currentUID, batch_end config messages currentUID)]).
Proof.
  set (ranges' := ranges ++ [(currentUID, batch_end config messages currentUID)]).
  set (I := λ w : World, fetched w = ranges').
  assert (HI : insensitive I) by apply insensitive_fetched.
  assert (Hrow : ∀ w row, I w → I (with_progress row w)) by done.
  unfold batch_body.
  apply (triple_bind _ _ _ (λ _, I)).
  { intros w Hw. unfold processBatch. run_m.
    destruct (snd (Fetch mb currentUID (batch_end config messages currentUID)));
      simpl; unfold I, ranges'; simpl; by rewrite Hw. }
  intros r. destruct (snd r).
  - eapply triple_bind; [by apply triple_log_event|]. intros ?.
    eapply triple_bind; [by apply saveProgress_preserves|]. intros ?.
    by apply triple_ret.
  - eapply triple_bind; [by apply filter_new_preserves|]. intros newSenders.
    eapply triple_bind.
    { apply store_new_preserves; [done|]. intros senders verbose.
      by apply saveSendersBatch_preserves. }
    intros ?. unfold update_progress.
    eapply triple_bind; [by apply saveProgress_preserves|]. intros err.
    apply (triple_bind _ _ _ (λ _, I)); [|intros ?; by apply triple_ret].
    destruct (is_nil err); [by apply triple_ret|by apply triple_log_event].
Qed.

Lemma batch_loop_fetches (config : Config) (mb : Mailbox) (messages : Z)
    (fuel : nat) :
  0 < BatchSize config →
  messages + BatchSize config < 4294967296 →
  ∀ currentUID progress ranges,
    0 ≤ currentUID →
    triple (λ w, fetched w = ranges)
      (batch_loop unicode ParseAddress fuel config mb messages currentUID progress)
      (λ _ w, fetched w
              = ranges ++ batch_ranges fuel (BatchSize config) messages
                            currentUID).
Proof.
  intros Hpos Hbound.
  induction fuel as [|fuel IH]; intros currentUID progress ranges Hcur; simpl;
    destruct (Z.leb_spec currentUID messages) as [Hle|Hgt];
    try (apply triple_ret; intros w Hw; by rewrite app_nil_r).
  destruct (batch_end_no_wrap config messages currentUID Hpos Hbound
              (conj Hcur Hle)) as [Hend Hnext].
  eapply triple_bind; [apply batch_body_fetches|]. intros p.
  rewrite Hend, Hnext.
  intros w Hw.
  rewrite (IH (currentUID + BatchSize config) p _ ltac:(lia) w Hw).
  by rewrite <- app_assoc.
Qed.

(** X10: a run fetches exactly the batches that follow the checkpoint, in
    order, whatever fails on the way: the first range starts at
    [LastProcessedUID + 1], each next one [BatchSize] further, each ends at
    most at the mailbox size.  No message up to the checkpoint is fetched
    again and no range goes beyond the mailbox. *)
Theorem run_fetches_batches_after_checkpoint (fuel : nat) (config : Config)
    (mb : Mailbox) (w : World) (p : Progress) (messages : Z) :
  fst (loadProgress w) = Some p →
  dial_ok mb = true → login_ok mb = true → select_INBOX mb = Some messages →
  0 < BatchSize config →
  0 < messages →
  messages + BatchSize config < 4294967296 →
  LastProcessedUID p < 4294967295 →
  let ranges :=
    batch_ranges fuel (BatchSize config) messages (LastProcessedUID p + 1) in
  fetched (snd (scanEmailsBatch unicode ParseAddress fuel config mb w))
  = fetched w ++ ranges
  ∧ ∀ a b, (a, b) ∈ ranges → LastProcessedUID p < a ∧ a ≤ b ≤ messages.
Proof.
  intros Hload Hdial Hlogin Hselect Hpos Hmsg Hbound Hlast. simpl.
  destruct (start_position_no_wrap p (loadProgress_fits w p Hload) Hlast)
    as [Hstart Hlo].
  split.
  - pose proof (loadProgress_same_data w) as (_ & _ & Hf & _).
    unfold scanEmailsBatch.
    rewrite bind_run, Hload, Hdial, Hlogin, Hselect. simpl.
    destruct (Z.eqb_spec messages 0) as [|_]; [lia|].
    rewrite Hstart.
    destruct (Z.gtb_spec (LastProcessedUID p + 1) messages) as [Hgt|Hle].
    + run_m. rewrite Hf.
      destruct fuel; simpl; [by rewrite app_nil_r|].
      destruct (Z.leb_spec (LastProcessedUID p + 1) messages); [lia|].
      by rewrite app_nil_r.
    + rewrite bind_run. simpl. rewrite bind_run.
      match goal with
      | |- context [batch_loop unicode ParseAddress fuel config mb messages
          ?c ?q ?w1] =>
          pose proof (batch_loop_fetches config mb messages fuel Hpos Hbound
                        c q (fetched w) ltac:(lia) w1 Hf) as Hloop;
          destruct (batch_loop unicode ParseAddress fuel config mb messages c q w1)
            as [[finished p'] w2]
      end.
      simpl in Hloop. destruct finished; simpl; exact Hloop.
  - intros a b Hin. apply batch_ranges_bounds in Hin; lia.
Qed.

(** With no failing database call, a run whose fetches up to the end of
    the mailbox succeed ends with the checkpoint at the end of the mailbox,
    whatever became of the batches before. *)
Lemma batch_loop_reaches_size (config : Config) (mb : Mailbox) (messages : Z) :
  0 < BatchSize config →
  messages + BatchSize config < 4294967296 →
  (∀ a, a ≤ messages < a + BatchSize config →
        snd (Fetch mb a messages) = None) →
  ∀ (fuel : nat) currentUID progress row ranges w,
    0 ≤ currentUID ≤ messages →
    (Z.to_nat (messages + 1 - currentUID) ≤ fuel)%nat →
    clean (Some row) ranges w →
    let r := batch_loop unicode ParseAddress fuel config mb messages currentUID
               progress w in
    fst (fst r) = true
    ∧ LastProcessedUID (snd (fst r)) = messages
    ∧ ProcessedCount (snd (fst r)) = messages
    ∧ faults (snd r) = []
    ∧ progress_row (snd r) = Some (snd (fst r)).
Proof.
  intros Hpos Hbound Hlast.
  induction fuel as [|fuel IH];
    intros currentUID progress row ranges w Hcur Hfuel Hclean; [lia|].
  rewrite batch_loop_step by lia. simpl. rewrite bind_run.
  destruct (batch_end_no_wrap config messages currentUID Hpos Hbound Hcur)
    as [Hend Hnext].
  rewrite Hnext.
  destruct (snd (Fetch mb currentUID (batch_end config messages currentUID)))
    as [err|] eqn:Hfetch.
  - destruct (batch_body_fetch_failed unicode ParseAddress row ranges config mb
                messages currentUID progress err Hfetch w Hclean)
      as [Hp Hw].
    simpl in Hp, Hw. rewrite Hp.
    destruct (Z_le_gt_dec (currentUID + BatchSize config) messages)
      as [Hmore|Hdone].
    + eapply IH; [lia|lia|exact Hw].
    + rewrite Hend, Z.min_r in Hfetch by lia.
      rewrite Hlast in Hfetch by lia. discriminate.
  - destruct (batch_body_fetched unicode ParseAddress row ranges config mb
                messages currentUID progress Hfetch w Hclean)
      as [Hp Hw].
    simpl in Hp, Hw. rewrite Hp.
    destruct (Z_le_gt_dec (currentUID + BatchSize config) messages)
      as [Hmore|Hdone].
    + eapply IH; [lia|lia|exact Hw].
    + rewrite batch_loop_done by lia. simpl.
      destruct Hw as (Hf & Hrow & _).
      rewrite Hend, Z.min_r in * by lia. by repeat split.
Qed.

Lemma run_reaches_size (fuel : nat) (config : Config) (mb : Mailbox)
    (w : World) (row : Progress) (ranges : list (Z * Z)) (messages : Z) :
  clean (Some row) ranges w →
  fits_uint32 (LastProcessedUID row) && fits_uint32 (TotalMessages row)
    && fits_uint32 (ProcessedCount row) = true →
  dial_ok mb = true → login_ok mb = true → select_INBOX mb = Some messages →
  0 < BatchSize config →
  messages + BatchSize config < 4294967296 →
  LastProcessedUID row < messages →
  (∀ a, a ≤ messages < a + BatchSize config →
        snd (Fetch mb a messages) = None) →
  (Z.to_nat messages ≤ fuel)%nat →
  let r := scanEmailsBatch unicode ParseAddress fuel config mb w in
  outcome (fst r) = Returned None
  ∧ progress_row (snd r) = Some (checkpoint messages messages messages)
  ∧ faults (snd r) = [].
Proof.
  intros Hclean Hfits Hdial Hlogin Hselect Hpos Hbound Hlast Hfetch Hfuel.
  simpl.
  destruct (start_position_no_wrap row Hfits ltac:(lia)) as [Hstart Hlo].
  destruct (loadProgress_clean row ranges Hfits w Hclean) as [Hload Hw1].
  unfold scanEmailsBatch.
  rewrite bind_run, Hload, Hdial, Hlogin, Hselect. simpl.
  destruct (Z.eqb_spec messages 0) as [|_]; [lia|].
  rewrite Hstart.
  destruct (Z.gtb_spec (LastProcessedUID row + 1) messages) as [|_]; [lia|].
  rewrite bind_run. simpl. rewrite bind_run.
  match goal with
  | |- context [batch_loop unicode ParseAddress fuel config mb messages ?c ?q ?w1] =>
      assert (Hw : clean (Some row) ranges w1) by done;
      pose proof (batch_loop_reaches_size config mb messages Hpos Hbound
                    Hfetch fuel c q row ranges w1 ltac:(lia) ltac:(lia) Hw)
        as (Hfin & HL & HP & Hfaults & Hrow);
      pose proof (batch_loop_total unicode ParseAddress config mb messages fuel c q
                    w1 I) as Htotal;
      destruct (batch_loop unicode ParseAddress fuel config mb messages c q w1)
        as [[finished p'] w2]
  end.
  simpl in *. subst finished. simpl. split; [reflexivity|].
  split; [|done].
  rewrite Hrow. destruct p'. simpl in *. by subst.
Qed.

(** X11: with no failing database call and no wrap-around of the counter,
    a run that gets into the loop and whose last batch (the one that ends
    at the last message) is fetched returns [nil] and leaves the checkpoint
    [(messages, messages, messages)] in the database; in particular a run
    in which every batch is fetched does.  Batches before the last one may
    have failed: the stored checkpoint does not tell. *)
Theorem run_ends_with_checkpoint_at_mailbox_size (fuel : nat)
    (config : Config) (mb : Mailbox) (w : World) (row : Progress)
    (ranges : list (Z * Z)) (messages : Z) :
  clean (Some row) ranges w →
  fits_uint32 (LastProcessedUID row) && fits_uint32 (TotalMessages row)
    && fits_uint32 (ProcessedCount row) = true →
  dial_ok mb = true → login_ok mb = true → select_INBOX mb = Some messages →
  0 < BatchSize config →
  messages + BatchSize config < 4294967296 →
  LastProcessedUID row < messages →
  (∀ a, a ≤ messages < a + BatchSize config →
        snd (Fetch mb a messages) = None) →
  (Z.to_nat messages ≤ fuel)%nat →
  let r := scanEmailsBatch unicode ParseAddress fuel config mb w in
  outcome (fst r) = Returned None
  ∧ progress_row (snd r) = Some (checkpoint messages messages messages).
Proof.
  intros Hclean Hfits Hdial Hlogin Hselect Hpos Hbound Hlast Hfetch Hfuel.
  destruct (run_reaches_size fuel config mb w row ranges messages Hclean Hfits
              Hdial Hlogin Hselect Hpos Hbound Hlast Hfetch Hfuel)
    as (Ho & Hrow & _).
  by split.
Qed.

(** X19: two runs in a row.  After a run as in X11 a second run on the
    same mailbox returns [nil] at once: it fetches nothing, adds no sender
    and leaves the checkpoint where it is. *)
Theorem second_run_after_complete_run_is_idle (fuel fuel' : nat)
    (config config' : Config) (mb : Mailbox) (w : World) (row : Progress)
    (ranges : list (Z * Z)) (messages : Z) :
  clean (Some row) ranges w →
  fits_uint32 (LastProcessedUID row) && fits_uint32 (TotalMessages row)
    && fits_uint32 (ProcessedCount row) = true →
  dial_ok mb = true → login_ok mb = true → select_INBOX mb = Some messages →
  0 < BatchSize config →
  messages + BatchSize config < 4294967296 →
  LastProcessedUID row < messages →
  (∀ a, a ≤ messages < a + BatchSize config →
        snd (Fetch mb a messages) = None) →
  (Z.to_nat messages ≤ fuel)%nat →
  let first := scanEmailsBatch unicode ParseAddress fuel config mb w in
  let second := scanEmailsBatch unicode ParseAddress fuel' config' mb (snd first) in
  outcome (fst second) = Returned None
  ∧ senders_table (snd second) = senders_table (snd first)
  ∧ progress_row (snd second) = progress_row (snd first)
  ∧ fetched (snd second) = fetched (snd first).
Proof.
  intros Hclean Hfits Hdial Hlogin Hselect Hpos Hbound Hlast Hfetch Hfuel.
  destruct (run_reaches_size fuel config mb w row ranges messages Hclean Hfits
              Hdial Hlogin Hselect Hpos Hbound Hlast Hfetch Hfuel)
    as (_ & Hrow & Hfaults).
  simpl in *.
  set (w1 := snd (scanEmailsBatch unicode ParseAddress fuel config mb w)) in *.
  destruct (start_position_no_wrap row Hfits ltac:(lia)) as [_ Hlo].
  assert (Hfits1 :
    fits_uint32 (LastProcessedUID (checkpoint messages messages messages))
    && fits_uint32 (TotalMessages (checkpoint messages messages messages))
    && fits_uint32 (ProcessedCount (checkpoint messages messages messages))
    = true).
  { simpl. unfold fits_uint32.
    assert (H1 : (0 <=? messages) = true) by (apply Z.leb_le; lia).
    assert (H2 : (messages <=? 4294967295) = true) by (apply Z.leb_le; lia).
    by rewrite H1, H2. }
  destruct (loadProgress_clean _ (fetched w1) Hfits1 w1
              (conj Hfaults (conj Hrow eq_refl))) as [Hload _].
  destruct (scanEmailsBatch_idle unicode ParseAddress fuel' config' mb w1 _ messages
              Hload Hdial Hlogin Hselect) as [Hzero _]; [|exact Hzero].
  right. simpl. unfold wrap32. rewrite Z.mod_small by lia. lia.
Qed.

End WithParser.

Lemma flaky_last_batch (a : Z) :
  a ≤ 1247 < a + BatchSize config_500 →
  snd (Fetch flaky_mailbox a 1247) = None.
Proof.
  simpl. intros Ha. by destruct (Z.eqb_spec a 501); [lia|].
Qed.

Lemma run_ends_with_checkpoint_at_mailbox_size_witness :
  progress_row (snd (scanEmailsBatch example_unicode example_ParseAddress
      1247 config_500
                       flaky_mailbox initialised_world))
  = Some (checkpoint 1247 1247 1247).
Proof.
  exact (proj2 (run_ends_with_checkpoint_at_mailbox_size example_unicode
      example_ParseAddress
                  1247 config_500 flaky_mailbox initialised_world
                  zero_progress [] 1247
                  (conj eq_refl (conj eq_refl eq_refl)) eq_refl
                  eq_refl eq_refl eq_refl eq_refl eq_refl eq_refl
                  flaky_last_batch ltac:(vm_compute; lia))).
Defined.

Lemma run_fetches_batches_after_checkpoint_witness :
  fetched (snd (scanEmailsBatch example_unicode example_ParseAddress 5 config_500
                  flaky_mailbox
                  (with_progress (Some (checkpoint 500 1247 500))
                     initialised_world)))
  = [(501, 1000); (1001, 1247)].
Proof.
  exact (proj1 (run_fetches_batches_after_checkpoint example_unicode
      example_ParseAddress 5
                  config_500 flaky_mailbox
                  (with_progress (Some (checkpoint 500 1247 500))
                     initialised_world)
                  (checkpoint 500 1247 500) 1247
                  eq_refl eq_refl eq_refl eq_refl eq_refl eq_refl eq_refl
                  eq_refl)).
Defined.

Lemma second_run_after_complete_run_is_idle_witness :
  let first := scanEmailsBatch example_unicode example_ParseAddress 1247 config_500
                 flaky_mailbox initialised_world in
  fetched (snd (scanEmailsBatch example_unicode example_ParseAddress 3 config_500
                  flaky_mailbox (snd first)))
  = fetched (snd first).
Proof.
  exact (proj2 (proj2 (proj2
           (second_run_after_complete_run_is_idle example_unicode example_ParseAddress
              1247 3 config_500 config_500 flaky_mailbox initialised_world
              zero_progress [] 1247
              (conj eq_refl (conj eq_refl eq_refl)) eq_refl
              eq_refl eq_refl eq_refl eq_refl eq_refl eq_refl
              flaky_last_batch ltac:(vm_compute; lia))))).
Defined.

Section Exits.

Variable unicode : Unicode.
Variable ParseAddress : string -> option MailAddress.

(** A run that has selected the mailbox returns no error any more. *)
Lemma selected_run_returns_no_error (fuel : nat) (config : Config)
    (mb : Mailbox) (w : World) (p : Progress) (messages : Z) (e : ScanError) :
  fst (loadProgress w) = Some p →
  dial_ok mb = true → login_ok mb = true → select_INBOX mb = Some messages →
  outcome (fst (scanEmailsBatch unicode ParseAddress fuel config mb w))
  ≠ Returned (Some e).
Proof.
  intros Hload Hdial Hlogin Hselect.
  unfold scanEmailsBatch. rewrite bind_run, Hload, Hdial, Hlogin, Hselect.
  simpl.
  destruct (messages =? 0); [run_m; discriminate|].
  destruct (_ >? messages); [run_m; discriminate|].
  rewrite bind_run. simpl. rewrite bind_run.
  match goal with
  | |- context [batch_loop unicode ParseAddress fuel config mb messages ?c ?q ?w1] =>
      destruct (batch_loop unicode ParseAddress fuel config mb messages c q w1)
        as [[[|] p'] w2]
  end; run_m; discriminate.
Qed.

(** X12: the four fatal errors.  A run returns the error of
    [loadProgress], of the connection, of the login or of [Select] exactly
    in that order of precedence; a run returns an error only when one of
    these four steps failed, and then it is the error of the first step
    that failed; and whenever a run returns an error it has fetched nothing
    and written nothing to the database. *)
Theorem fatal_errors_touch_nothing (fuel : nat) (config : Config)
    (mb : Mailbox) (w : World) :
  let r := scanEmailsBatch unicode ParseAddress fuel config mb w in
  (fst (loadProgress w) = None →
   outcome (fst r) = Returned (Some ErrLoadProgress))
  ∧ (fst (loadProgress w) ≠ None → dial_ok mb = false →
     outcome (fst r) = Returned (Some ErrConnect))
  ∧ (fst (loadProgress w) ≠ None → dial_ok mb = true → login_ok mb = false →
     outcome (fst r) = Returned (Some ErrLogin))
  ∧ (fst (loadProgress w) ≠ None → dial_ok mb = true → login_ok mb = true →
     select_INBOX mb = None →
     outcome (fst r) = Returned (Some ErrSelect))
  ∧ (∀ e, outcome (fst r) = Returned (Some e) →
       senders_table (snd r) = senders_table w
       ∧ progress_row (snd r) = progress_row w
       ∧ fetched (snd r) = fetched w)
  ∧ (∀ e, outcome (fst r) = Returned (Some e) →
       (e = ErrLoadProgress ∧ fst (loadProgress w) = None)
       ∨ (e = ErrConnect ∧ fst (loadProgress w) ≠ None
          ∧ dial_ok mb = false)
       ∨ (e = ErrLogin ∧ fst (loadProgress w) ≠ None
          ∧ dial_ok mb = true ∧ login_ok mb = false)
       ∨ (e = ErrSelect ∧ fst (loadProgress w) ≠ None
          ∧ dial_ok mb = true ∧ login_ok mb = true
          ∧ select_INBOX mb = None)).
Proof.
  simpl.
  pose proof (loadProgress_same_data w) as (Ht & Hp & Hf & _).
  pose proof (selected_run_returns_no_error fuel config mb w) as Hselected.
  revert Hselected. unfold scanEmailsBatch. rewrite bind_run.
  destruct (fst (loadProgress w)) as [p|]; simpl.
  2: { intros _. repeat split; try done. intros e [= <-]. by left. }
  destruct (dial_ok mb); simpl.
  2: { intros _. repeat split; try done. intros e [= <-]. by right; left. }
  destruct (login_ok mb); simpl.
  2: { intros _. repeat split; try done. intros e [= <-].
       by right; right; left. }
  destruct (select_INBOX mb) as [messages|]; simpl.
  2: { intros _. repeat split; try done. intros e [= <-].
       by right; right; right. }
  intros Hselected.
  repeat split; try done;
    try (intros e He;
         destruct (Hselected p messages e eq_refl eq_refl eq_refl eq_refl He)).
  all: destruct (Hselected p messages e eq_refl eq_refl eq_refl eq_refl H).
Qed.

Lemma batch_loop_never_done (config : Config) (mb : Mailbox) (fuel : nat) :
  ∀ currentUID progress w,
    currentUID ≤ 4294967295 →
    fst (fst (batch_loop unicode ParseAddress fuel config mb 4294967295 currentUID
                progress w)) = false.
Proof.
  induction fuel as [|fuel IH]; intros currentUID progress w Hcur.
  - by rewrite batch_loop_out_of_fuel.
  - rewrite batch_loop_step by done. rewrite bind_run. apply IH.
    unfold wrap32.
    pose proof (Z.mod_pos_bound
                  (currentUID + BatchSize config `mod` 4294967296) 4294967296).
    lia.
Qed.

(** X13: the loop counter is a [uint32], so it can never exceed a mailbox
    size of 4294967295: on such a mailbox the batch loop does not end,
    however many passes it is given. *)
Theorem loop_never_ends_at_uint32_max (fuel : nat) (config : Config)
    (mb : Mailbox) (w : World) (p : Progress) :
  fst (loadProgress w) = Some p →
  dial_ok mb = true → login_ok mb = true →
  select_INBOX mb = Some 4294967295 →
  outcome (fst (scanEmailsBatch unicode ParseAddress fuel config mb w)) = Running.
Proof.
  intros Hload Hdial Hlogin Hselect.
  assert (Hstart : wrap32 (LastProcessedUID p + 1) ≤ 4294967295).
  { unfold wrap32.
    pose proof (Z.mod_pos_bound (LastProcessedUID p + 1) 4294967296). lia. }
  unfold scanEmailsBatch.
  rewrite bind_run, Hload, Hdial, Hlogin, Hselect. simpl.
  destruct (Z.gtb_spec (wrap32 (LastProcessedUID p + 1)) 4294967295) as [|_];
    [lia|].
  rewrite bind_run. simpl. rewrite bind_run.
  match goal with
  | |- context [batch_loop unicode ParseAddress fuel config mb _ ?c ?q ?w1] =>
      pose proof (batch_loop_never_done config mb fuel c q w1 Hstart) as Hnever;
      destruct (batch_loop unicode ParseAddress fuel config mb 4294967295 c q w1)
        as [[finished p'] w2]
  end.
  simpl in Hnever. by subst finished.
Qed.

(** X14: a batch whose fetch fails writes no sender and asks the database
    for nothing but the save of the checkpoint: the table is as before, one
    database call is used up, and the checkpoint in memory is put to just
    before the batch, whether or not that save succeeds. *)
Theorem failed_fetch_writes_no_sender (config : Config) (mb : Mailbox)
    (messages currentUID : Z) (progress : Progress) (w : World)
    (err : GoError) :
  snd (Fetch mb currentUID (batch_end config messages currentUID)) = Some err →
  let r := batch_body unicode ParseAddress config mb messages currentUID progress w in
  fst r = set_LastProcessedUID (wrap32 (currentUID - 1)) progress
  ∧ senders_table (snd r) = senders_table w
  ∧ faults (snd r) = tl (faults w)
  ∧ fetched (snd r)
    = fetched w ++ [(currentUID, batch_end config messages currentUID)].
Proof.
  intros Hfetch. simpl. unfold batch_body, processBatch. run_m.
  rewrite Hfetch. simpl. unfold saveProgress. run_m. open_world.
  destruct (hd false (faults w)); simpl; [by repeat split|].
  destruct (progress_row w); by repeat split.
Qed.

End Exits.

Lemma loop_never_ends_at_uint32_max_witness :
  outcome (fst (scanEmailsBatch example_unicode example_ParseAddress 40 config_500
                  {| dial_ok := true; login_ok := true;
                     select_INBOX := Some 4294967295;
                     Fetch := fun _ _ => ([], None) |}
                  initialised_world)) = Running.
Proof.
  exact (loop_never_ends_at_uint32_max example_unicode example_ParseAddress
      40 config_500
           {| dial_ok := true; login_ok := true;
              select_INBOX := Some 4294967295;
              Fetch := fun _ _ => ([], None) |}
           initialised_world zero_progress eq_refl eq_refl eq_refl eq_refl).
Defined.

Lemma failed_fetch_writes_no_sender_witness :
  senders_table
    (snd (batch_body example_unicode example_ParseAddress config_500
        flaky_mailbox 1247 501
            (checkpoint 500 1247 500) initialised_world))
  = senders_table initialised_world.
Proof.
  exact (proj1 (proj2 (failed_fetch_writes_no_sender example_unicode
      example_ParseAddress
                         config_500 flaky_mailbox 1247 501
                         (checkpoint 500 1247 500) initialised_world
                         FetchError eq_refl))).
Defined.

End LoopMore.

(** ** From the fetched senders to the table *)

Module PersistFacts.
Import GoStrings Resolver Store Scan Invariants RunSpec StoreFacts ScanInvariants.
Import BatchFacts BatchMore LoopFacts Examples.

Lemma count_email_positive (email : string) (rows : list EmailSender) :
  (count_email email rows >? 0) = bool_decide (email ∈ map Email rows).
Proof.
  unfold count_email.
  induction rows as [|row rows IH]; simpl; [reflexivity|].
  destruct (decide (Email row = email)) as [Heq|Hne].
  - rewrite filter_cons_True by done. simpl.
    rewrite bool_decide_eq_true_2 by (rewrite Heq; apply elem_of_cons; by left).
    apply Z.gtb_lt. lia.
  - rewrite filter_cons_False by done. rewrite IH.
    apply bool_decide_ext. rewrite elem_of_cons. split; [by right|].
    by intros [Heq|Hin].
Qed.

(** [emailExists], in full. *)
Lemma emailExists_run (email : string) (w : World) :
  emailExists email w
  = (negb (hd false (faults w))
     && bool_decide (email ∈ map Email (senders_table w)),
     with_faults (tl (faults w)) w).
Proof.
  unfold emailExists, query_count. run_m.
  destruct (hd false (faults w)); simpl; [reflexivity|].
  by rewrite count_email_positive.
Qed.

Lemma filter_new_spec (senders : list EmailSender) :
  ∀ (newSenders : list EmailSender) (w : World),
    ∃ kept,
      fst (filter_new senders newSenders w) = newSenders ++ kept
      ∧ (∀ s, s ∈ kept → s ∈ senders)
      ∧ (∀ s, s ∈ senders → Email s ∉ map Email (senders_table w) →
              s ∈ kept)
      ∧ senders_table (snd (filter_new senders newSenders w))
        = senders_table w
      ∧ (faults w = [] →
         kept = filter (λ s, Email s ∉ map Email (senders_table w)) senders
         ∧ faults (snd (filter_new senders newSenders w)) = []).
Proof.
  induction senders as [|sender rest IH]; intros newSenders w; simpl.
  - exists []. rewrite app_nil_r. repeat split; try done.
  - rewrite bind_run, emailExists_run. simpl.
    set (w1 := with_faults (tl (faults w)) w).
    assert (Hclean1 : faults w = [] → faults w1 = []).
    { intros Hw. unfold w1. simpl. by rewrite Hw. }
    destruct (hd false (faults w)) eqn:Hhd; simpl.
    + destruct (IH (newSenders ++ [sender]) w1)
        as (kept & Hfst & Hsub & Hnew & Htable & Hclean).
      exists (sender :: kept). rewrite Hfst, <- app_assoc.
      split; [done|]. split.
      { intros s [->|Hs]%elem_of_cons; [apply list_elem_of_here|].
        by apply list_elem_of_further, Hsub. }
      split.
      { intros s [->|Hs]%elem_of_cons Hfresh; [apply list_elem_of_here|].
        by apply list_elem_of_further, Hnew. }
      split; [done|].
      intros Hw. rewrite Hw in Hhd. discriminate.
    + destruct (decide (Email sender ∈ map Email (senders_table w)))
        as [Hin|Hout].
      * rewrite bool_decide_eq_true_2 by done.
        destruct (IH newSenders w1)
          as (kept & Hfst & Hsub & Hnew & Htable & Hclean).
        exists kept. split; [done|]. split.
        { intros s Hs. by apply list_elem_of_further, Hsub. }
        split.
        { intros s [->|Hs]%elem_of_cons Hfresh; [done|]. by apply Hnew. }
        split; [done|].
        intros Hw. destruct (Hclean (Hclean1 Hw)) as [-> Hf].
        split; [|done]. by rewrite filter_cons_False by (intros H; by apply H).
      * rewrite bool_decide_eq_false_2 by done.
        destruct (IH (newSenders ++ [sender]) w1)
          as (kept & Hfst & Hsub & Hnew & Htable & Hclean).
        exists (sender :: kept). rewrite Hfst, <- app_assoc.
        split; [done|]. split.
        { intros s [->|Hs]%elem_of_cons; [apply list_elem_of_here|].
          by apply list_elem_of_further, Hsub. }
        split.
        { intros s [->|Hs]%elem_of_cons Hfresh; [apply list_elem_of_here|].
          by apply list_elem_of_further, Hnew. }
        split; [done|].
        intros Hw. destruct (Hclean (Hclean1 Hw)) as [-> Hf].
        split; [|done]. by rewrite filter_cons_True by done.
Qed.

(** X15: the filter before the save never loses a new sender: every
    sender of the batch whose address has no row yet is among
    [newSenders], whichever queries fail (a failed query counts as "not
    there"); nothing else than senders of the batch gets in; and when no
    query fails [newSenders] are exactly the senders without a row, in the
    order of the batch. *)
Theorem filter_new_keeps_every_new_sender (senders : list EmailSender)
    (w : World) :
  let newSenders := fst (filter_new senders [] w) in
  (∀ s, s ∈ newSenders → s ∈ senders)
  ∧ (∀ s, s ∈ senders → Email s ∉ map Email (senders_table w) →
          s ∈ newSenders)
  ∧ (faults w = [] →
     newSenders
     = filter (λ s, Email s ∉ map Email (senders_table w)) senders).
Proof.
  simpl.
  destruct (filter_new_spec senders [] w)
    as (kept & Hfst & Hsub & Hnew & _ & Hclean).
  rewrite Hfst. simpl. repeat split; try done.
  intros Hw. by destruct (Hclean Hw).
Qed.

Lemma insensitive_steady (rows : list EmailSender) :
  insensitive (steady rows).
Proof.
  split; [done|]. intros w [Hf Ht]. split; [|done]. simpl. by rewrite Hf.
Qed.

Lemma storage_call_steady (rows : list EmailSender) :
  triple (steady rows) storage_call (λ failed w, failed = false ∧ steady rows w).
Proof.
  intros w [Hf Ht]. unfold storage_call. simpl. rewrite Hf.
  by repeat split.
Qed.

(** Without failures the statements of a transaction insert every sender
    whose address is not there yet. *)
Lemma exec_inserts_steady (rows : list EmailSender) (verbose : bool)
    (senders : list EmailSender) :
  ∀ tx savedCount,
    triple (steady rows) (exec_inserts verbose senders tx savedCount)
      (λ r w, fst r = insert_all tx senders ∧ steady rows w).
Proof.
  induction senders as [|sender rest IH]; intros tx savedCount; simpl.
  - by apply triple_ret.
  - eapply triple_bind_eq; [apply storage_call_steady|]. simpl.
    destruct (snd (insert_or_ignore tx sender) >? 0); [|apply IH].
    apply (triple_bind _ _ _ (λ _, steady rows)); [|intros ?; apply IH].
    destruct verbose; [|by apply triple_ret].
    apply triple_log_event, insensitive_steady.
Qed.

Lemma saveSendersBatch_steady (rows : list EmailSender)
    (senders : list EmailSender) (verbose : bool) :
  triple (steady rows) (saveSendersBatch senders verbose)
    (λ err w, err = None ∧ steady (insert_all rows senders) w).
Proof.
  unfold saveSendersBatch.
  destruct senders as [|sender rest]; [by apply triple_ret|].
  set (all := sender :: rest). clearbody all.
  eapply triple_bind; [apply triple_log_event, insensitive_steady|]. intros ?.
  eapply triple_bind_eq; [apply storage_call_steady|]. simpl.
  eapply triple_bind_eq.
  { apply (triple_gets _ _ (λ tx0 w, tx0 = rows ∧ steady rows w)).
    by intros w [Hf Ht]. }
  eapply triple_bind_eq; [apply storage_call_steady|]. simpl.
  eapply triple_bind.
  { apply (exec_inserts_steady rows verbose all rows 0). }
  intros r.
  apply (triple_assume _ (fst r = insert_all rows all) (steady rows));
    [by intros w [? ?]|]. intros ->.
  eapply triple_bind_eq; [apply storage_call_steady|]. simpl.
  eapply triple_bind.
  { apply (triple_modify _ _ (λ _, steady (insert_all rows all))).
    by intros w [Hf Ht]. }
  intros ?.
  eapply triple_bind; [apply triple_log_event, insensitive_steady|]. intros ?.
  by apply triple_ret.
Qed.

(** Senders with fresh, pairwise different addresses all get a row, in
    their order. *)
Lemma insert_all_fresh (senders : list EmailSender) :
  ∀ rows,
    NoDup (map Email senders) →
    (∀ s, s ∈ senders → Email s ∉ map Email rows) →
    insert_all rows senders = rows ++ senders.
Proof.
  unfold insert_all.
  induction senders as [|sender rest IH]; intros rows Hnd Hfresh; simpl.
  - by rewrite app_nil_r.
  - apply NoDup_cons in Hnd as [Hhead Hnd].
    unfold insert_or_ignore at 2.
    destruct (decide (Email sender ∈ map Email rows)) as [Hin|_].
    { exfalso. apply (Hfresh sender); [apply list_elem_of_here|done]. }
    simpl. rewrite IH; [by rewrite <- app_assoc|done|].
    intros s Hs. rewrite map_app. simpl. intros [Hrows|Hlast]%elem_of_app.
    + apply (Hfresh s); [by apply list_elem_of_further|done].
    + apply list_elem_of_singleton in Hlast. apply Hhead. rewrite <- Hlast.
      by apply list_elem_of_fmap_2.
Qed.

Lemma NoDup_map_filter {A B} (f : A → B) (P : A → Prop)
    `{!∀ x, Decision (P x)} (l : list A) :
  NoDup (map f l) → NoDup (map f (filter P l)).
Proof.
  induction l as [|x l IH]; simpl; [done|].
  intros [Hx Hnd]%NoDup_cons.
  destruct (decide (P x)).
  - rewrite filter_cons_True by done. simpl. apply NoDup_cons. split; [|auto].
    intros Hin. apply Hx. apply list_elem_of_fmap in Hin as (y & -> & Hy).
    apply list_elem_of_filter in Hy as [_ Hy]. by apply list_elem_of_fmap_2.
  - rewrite filter_cons_False by done. auto.
Qed.

Section WithParser.

Variable unicode : Unicode.
Variable ParseAddress : string -> option MailAddress.

(** X16: a batch that is fetched, on a database whose calls all succeed,
    adds to the table exactly the senders of the batch whose addresses had
    no row, after the rows there were; afterwards every sender of the batch
    has a row for its address. *)
Theorem fetched_batch_stores_new_senders (config : Config) (mb : Mailbox)
    (messages currentUID : Z) (progress : Progress) (w : World) :
  faults w = [] →
  snd (Fetch mb currentUID (batch_end config messages currentUID)) = None →
  let senders :=
    fst (fst (processBatch unicode ParseAddress mb currentUID
                (batch_end config messages currentUID) w)) in
  let w' :=
    snd (batch_body unicode ParseAddress config mb messages currentUID progress w) in
  senders_table w'
  = senders_table w
    ++ filter (λ s, Email s ∉ map Email (senders_table w)) senders
  ∧ ∀ s, s ∈ senders → Email s ∈ map Email (senders_table w').
Proof.
  intros Hclean Hfetch. simpl.
  set (endUID := batch_end config messages currentUID) in *.
  rewrite processBatch_unfold, Hfetch. simpl.
  set (senders := map snd (map_to_list
                    (collect unicode ParseAddress (fst (Fetch mb currentUID endUID))))).
  set (rows := senders_table w).
  set (new := filter (λ s, Email s ∉ map Email rows) senders).
  assert (Htable : senders_table
            (snd (batch_body unicode ParseAddress config mb messages currentUID
                    progress w)) = rows ++ new).
  { cut (triple (steady rows)
           (batch_body unicode ParseAddress config mb messages currentUID progress)
           (λ _ w', steady (rows ++ new) w')).
    { intros Ht. by destruct (Ht w (conj Hclean eq_refl)). }
    unfold batch_body. fold endUID.
    apply (triple_bind_eq _ (steady rows) _ _ (senders, None)).
    { intros w0 Hw0. rewrite processBatch_unfold, Hfetch. simpl.
      split; [reflexivity|]. by destruct Hw0. }
    simpl.
    apply (triple_bind_eq _ (steady rows) _ _ new).
    { intros w0 [Hf Ht].
      destruct (filter_new_spec senders [] w0)
        as (kept & Hfst & _ & _ & Hsame & Hexact).
      destruct (Hexact Hf) as [-> Hf']. rewrite Hfst, Ht. simpl.
      split; [reflexivity|]. by split; [|rewrite Hsame]. }
    fold new.
    apply (triple_bind _ _ _ (λ _, steady (rows ++ new))).
    { unfold store_new. destruct new as [|s0 new0] eqn:Hnew.
      { apply triple_ret. intros w0 Hw0. by rewrite app_nil_r. }
      rewrite <- Hnew.
      eapply triple_bind_eq.
      { apply (saveSendersBatch_steady rows new (Verbose config)). }
      simpl. apply triple_ret. intros w0 Hw0.
      rewrite insert_all_fresh in Hw0; [done| |].
      - apply NoDup_map_filter, collect_senders_distinct.
      - intros s Hs. by apply list_elem_of_filter in Hs as [Hs _]. }
    intros ?. unfold update_progress.
    eapply triple_bind.
    { apply saveProgress_preserves; [apply insensitive_steady|done]. }
    intros err.
    apply (triple_bind _ _ _ (λ _, steady (rows ++ new)));
      [|intros ?; by apply triple_ret].
    destruct (is_nil err); [by apply triple_ret|].
    apply triple_log_event, insensitive_steady. }
  split; [exact Htable|].
  intros s Hs. rewrite Htable, map_app. apply elem_of_app.
  destruct (decide (Email s ∈ map Email rows)) as [Hin|Hout]; [by left|].
  right. apply list_elem_of_fmap_2. by apply list_elem_of_filter.
Qed.

End WithParser.

Lemma fetched_batch_stores_new_senders_witness :
  map Email
    (senders_table
       (snd (batch_body example_unicode example_ParseAddress config_500
           steady_mailbox 1247 1
               zero_progress initialised_world)))
  = ["carol.jones@y.org"; "a@x.com"].
Proof.
  pose proof (proj1 (fetched_batch_stores_new_senders example_unicode
      example_ParseAddress
                       config_500 steady_mailbox 1247 1 zero_progress
                       initialised_world eq_refl eq_refl)) as H.
  rewrite H. reflexivity.
Defined.

End PersistFacts.

(** ** The bytes of a derived name *)

Module NameFacts.
Import GoStrings Resolver NameSpec Flags UnicodeSpec ResolverFacts FlagsFacts.
Import AsciiFacts.

Section Separator.

(** One of the bytes the derivation removes. *)
Variable c : ascii.
Hypothesis separator :
  c = "."%char ∨ c = "_"%char ∨ c = "-"%char ∨ c = "@"%char.

Lemma to_lower_not_separator (x : ascii) :
  Ascii.eqb (to_lower x) c = Ascii.eqb x c.
Proof.
  destruct separator as [->|[->|[->| ->]]];
    destruct x as [[] [] [] [] [] [] [] []]; reflexivity.
Qed.

Lemma to_title_not_separator (x : ascii) :
  Ascii.eqb (to_title x) c = Ascii.eqb x c.
Proof.
  destruct separator as [->|[->|[->| ->]]];
    destruct x as [[] [] [] [] [] [] [] []]; reflexivity.
Qed.

Lemma occurs_ToLower_ascii (s : string) :
  occurs c (ToLower_ascii s) = occurs c s.
Proof.
  induction s as [|x s IH]; simpl; [reflexivity|].
  by rewrite to_lower_not_separator, IH.
Qed.

Lemma occurs_Title_from (prev : ascii) (s : string) :
  occurs c (Title_from prev s) = occurs c s.
Proof.
  revert prev; induction s as [|x s IH]; intros prev; simpl; [reflexivity|].
  rewrite IH. destruct (isSeparator prev); [|reflexivity].
  by rewrite to_title_not_separator.
Qed.

Lemma occurs_local_part (s : string) :
  occurs c (local_part s) = true → c ≠ "@"%char ∧ occurs c s = true.
Proof.
  induction s as [|x s IH]; simpl; [discriminate|].
  destruct (Ascii.eqb_spec x "@"%char) as [->|Hne]; simpl; [discriminate|].
  intros [Hx|Hrest]%orb_true_iff.
  - apply Ascii.eqb_eq in Hx. subst x. split; [done|].
    by rewrite Ascii.eqb_refl.
  - destruct (IH Hrest) as [? Hs]. split; [done|]. by rewrite Hs, orb_true_r.
Qed.

Lemma occurs_fragment (s : string) :
  ∀ piece fragment,
    fragment ∈ fragments_from piece s →
    occurs c fragment = true →
    occurs c piece = true ∨ (in_name_class c = false ∧ occurs c s = true).
Proof.
  induction s as [|x s IH]; intros piece fragment; simpl.
  - destruct (decide (piece = EmptyString)).
    + intros Hin. by apply elem_of_nil in Hin.
    + intros Hin%list_elem_of_singleton. subst. by left.
  - destruct (in_name_class x) eqn:Hclass.
    + assert (Hrest : fragment ∈ fragments_from EmptyString s →
                occurs c fragment = true →
                occurs c piece = true
                ∨ in_name_class c = false
                  ∧ Ascii.eqb x c || occurs c s = true).
      { intros Hin Hocc. destruct (IH _ _ Hin Hocc) as [Hp|[Hc Hs]];
          [discriminate|].
        right. split; [done|]. by rewrite Hs, orb_true_r. }
      destruct (decide (piece = EmptyString)); [exact Hrest|].
      intros [->|Hin]%elem_of_cons; [by left|by apply Hrest].
    + intros Hin Hocc. destruct (IH _ _ Hin Hocc) as [Hp|[Hc Hs]].
      * rewrite occurs_append in Hp. simpl in Hp.
        apply orb_true_iff in Hp as [Hp|Hx]; [by left|].
        rewrite orb_false_r in Hx. right.
        apply Ascii.eqb_eq in Hx. subst x. split; [done|].
        by rewrite Ascii.eqb_refl.
      * right. split; [done|]. by rewrite Hs, orb_true_r.
Qed.

Lemma occurs_Join (parts : list string) :
  occurs c (Join parts " ") = true →
  ∃ part, part ∈ parts ∧ occurs c part = true.
Proof.
  assert (Hspace : occurs c " " = false).
  { by destruct separator as [->|[->|[->| ->]]]. }
  induction parts as [|part rest IH]; simpl; [discriminate|].
  destruct rest as [|next rest].
  - intros Hocc. exists part. split; [apply list_elem_of_here|done].
  - rewrite !occurs_append, Hspace. simpl.
    intros [Hpart|Hrest]%orb_true_iff.
    + exists part. split; [apply list_elem_of_here|done].
    + destruct (IH Hrest) as (q & Hq & Hocc).
      exists q. split; [by apply list_elem_of_further|done].
Qed.

Lemma is_ascii_append (a b : string) :
  is_ascii (a +:+ b) = is_ascii a && is_ascii b.
Proof.
  induction a as [|x a IH]; [reflexivity|].
  change (String x a +:+ b) with (String x (a +:+ b)). simpl.
  by rewrite IH, andb_assoc.
Qed.

Lemma is_ascii_local_part (s : string) :
  is_ascii s = true → is_ascii (local_part s) = true.
Proof.
  induction s as [|x s IH]; simpl; [done|].
  intros [Hx Hs]%andb_true_iff.
  destruct (Ascii.eqb x "@"%char); simpl; [done|].
  by rewrite Hx, IH.
Qed.

Lemma is_ascii_fragment (s : string) :
  ∀ piece fragment,
    is_ascii piece = true → is_ascii s = true →
    fragment ∈ fragments_from piece s → is_ascii fragment = true.
Proof.
  induction s as [|x s IH]; intros piece fragment Hpiece; simpl.
  - intros _. destruct (decide (piece = EmptyString)).
    + intros Hin. by apply elem_of_nil in Hin.
    + intros Hin%list_elem_of_singleton. by subst.
  - intros [Hx Hs]%andb_true_iff.
    destruct (in_name_class x).
    + destruct (decide (piece = EmptyString)).
      * by apply IH.
      * intros [->|Hin]%elem_of_cons; [done|]. by apply (IH EmptyString).
    + apply IH; [|done]. rewrite is_ascii_append, Hpiece. simpl.
      by rewrite Hx.
Qed.

Variable unicode : Unicode.

(** [strings.ToLower] and [strings.Title] bring no separator into a
    string that is all ASCII, nor into any string when the case mapping
    makes none. *)
Lemma occurs_ToLower (s : string) :
  is_ascii s = true ∨ maps_no_separator unicode →
  occurs c (ToLower unicode s) = true → occurs c s = true.
Proof.
  intros Hcase. unfold ToLower. destruct (is_ascii s) eqn:Hs.
  - by rewrite occurs_ToLower_ascii.
  - destruct Hcase as [|Hmaps]; [discriminate|].
    destruct (occurs c s) eqn:Hocc; [done|].
    destruct (Hmaps c s separator Hocc) as [Hlower _]. by rewrite Hlower.
Qed.

Lemma occurs_Title (s : string) :
  is_ascii s = true ∨ maps_no_separator unicode →
  occurs c (Title unicode s) = true → occurs c s = true.
Proof.
  intros Hcase. unfold Title. destruct (is_ascii s) eqn:Hs.
  - unfold Title_ascii. by rewrite occurs_Title_from.
  - destruct Hcase as [|Hmaps]; [discriminate|].
    destruct (occurs c s) eqn:Hocc; [done|].
    destruct (Hmaps c s separator Hocc) as [_ Htitle]. by rewrite Htitle.
Qed.

Lemma derived_name_has_no_separator (emailAddr : string) :
  is_ascii emailAddr = true ∨ maps_no_separator unicode →
  occurs c (extractNameFromEmail unicode emailAddr) = false.
Proof.
  intros Hcase. rewrite extractNameFromEmail_spec. unfold derived_name.
  apply not_true_is_false. intros Hocc.
  apply occurs_Join in Hocc as (part & Hpart & Hocc).
  apply list_elem_of_fmap in Hpart as (fragment & -> & Hfragment).
  assert (Hfrag : is_ascii fragment = true ∨ maps_no_separator unicode).
  { destruct Hcase as [Hascii|Hmaps]; [left|by right].
    apply (is_ascii_fragment (local_part emailAddr) EmptyString);
      [done|by apply is_ascii_local_part|done]. }
  assert (Hlower : is_ascii (ToLower unicode fragment) = true
                   ∨ maps_no_separator unicode).
  { destruct Hfrag as [Hascii|Hmaps]; [left|by right].
    by apply ToLower_of_ascii. }
  apply (occurs_Title _ Hlower), (occurs_ToLower _ Hfrag) in Hocc.
  destruct (occurs_fragment _ _ _ Hfragment Hocc) as [Hempty|[Hclass Hlocal]];
    [discriminate|].
  apply occurs_local_part in Hlocal as [Hat _].
  by destruct separator as [->|[->|[->| ->]]].
Qed.

End Separator.

(** X17: a name derived from an address that is all ASCII has none of the
    bytes [.], [_], [-] and [@] in it; and so has the name derived from
    any address, if the case mapping of the Unicode tables makes none of
    the four bytes. *)
Theorem extractNameFromEmail_has_no_separator (unicode : Unicode)
    (emailAddr : string) :
  is_ascii emailAddr = true ∨ maps_no_separator unicode →
  occurs "."%char (extractNameFromEmail unicode emailAddr) = false
  ∧ occurs "_"%char (extractNameFromEmail unicode emailAddr) = false
  ∧ occurs "-"%char (extractNameFromEmail unicode emailAddr) = false
  ∧ occurs "@"%char (extractNameFromEmail unicode emailAddr) = false.
Proof.
  intros Hcase.
  repeat split; apply derived_name_has_no_separator; auto.
Qed.

Lemma extractNameFromEmail_has_no_separator_witness :
  is_ascii "john.doe_smith-jr@x.com" = true
  ∧ occurs "_"%char
      (extractNameFromEmail Examples.example_unicode "john.doe_smith-jr@x.com")
    = false.
Proof.
  split; [reflexivity|].
  exact (proj1 (proj2 (extractNameFromEmail_has_no_separator
                         Examples.example_unicode "john.doe_smith-jr@x.com"
                         (or_introl eq_refl)))).
Defined.

(** The tables of the examples, which map every string to itself, make
    no separator. *)
Example example_unicode_maps_no_separator :
  maps_no_separator Examples.example_unicode.
Proof. intros c s _ Hs. by split. Qed.

End NameFacts.

(** ** What [main] reports *)

Module MainFacts.
Import GoStrings Resolver Store Scan Invariants StoreFacts ScanInvariants LoopFacts.
Import Main Examples.

Section WithParser.

Variable unicode : Unicode.
Variable ParseAddress : string -> option MailAddress.

(** Past [Select], a run whose loop ends returns [nil]. *)
Lemma scan_returns_nil (fuel : nat) (config : Config) (mb : Mailbox)
    (w : World) (p : Progress) (messages : Z) :
  fst (loadProgress w) = Some p →
  dial_ok mb = true → login_ok mb = true → select_INBOX mb = Some messages →
  0 < BatchSize config →
  0 ≤ messages →
  messages + BatchSize config < 4294967296 →
  (Z.to_nat messages < fuel)%nat →
  outcome (fst (scanEmailsBatch unicode ParseAddress fuel config mb w)) = Returned None.
Proof.
  intros Hload Hdial Hlogin Hselect Hpos Hmsg Hbound Hfuel.
  destruct (Z.eq_dec messages 0) as [Hzero|Hnonzero].
  { by destruct (scanEmailsBatch_idle unicode ParseAddress fuel config mb w p messages
                   Hload Hdial Hlogin Hselect (or_introl Hzero))
      as [(Ho & _) _]. }
  destruct (Z_gt_le_dec (wrap32 (LastProcessedUID p + 1)) messages)
    as [Hgt|Hle].
  { by destruct (scanEmailsBatch_idle unicode ParseAddress fuel config mb w p messages
                   Hload Hdial Hlogin Hselect (or_intror Hgt))
      as [(Ho & _) _]. }
  unfold scanEmailsBatch.
  rewrite bind_run, Hload, Hdial, Hlogin, Hselect. simpl.
  destruct (Z.eqb_spec messages 0) as [|_]; [done|].
  destruct (Z.gtb_spec (wrap32 (LastProcessedUID p + 1)) messages) as [|_];
    [lia|].
  rewrite bind_run. simpl. rewrite bind_run.
  assert (Hstart : 0 ≤ wrap32 (LastProcessedUID p + 1)).
  { unfold wrap32. apply Z.mod_pos_bound. lia. }
  match goal with
  | |- context [batch_loop unicode ParseAddress fuel config mb messages ?c ?q ?w1] =>
      pose proof (batch_loop_ends unicode ParseAddress config mb messages fuel
                    Hpos Hbound c q Hstart ltac:(lia) w1 I) as Hends;
      destruct (batch_loop unicode ParseAddress fuel config mb messages c q w1)
        as [[finished p'] w2]
  end.
  simpl in Hends. subst finished. reflexivity.
Qed.

(** X18: when the database answers the first eight calls ([initDB], the
    first [showStats], [loadProgress]) and the connection, the login and
    [Select] succeed, the program reports [SUCCESS], for any batch size
    given on the command line and whatever happens afterwards: batches
    that cannot be fetched, senders or checkpoints that cannot be saved.
    The count query is the fourth database call after the scan, the three
    of the second [showStats] coming first: the number of senders in the
    message is 0 when that call fails, and the number of rows of the
    table, as the scan left it, when it succeeds. *)
Theorem main_reports_success_whatever_fails (fuel : nat) (batch : Z)
    (verbose : bool) (mb : Mailbox) (w : World) (messages : Z)
    (later : list bool) :
  faults w = replicate 8 false ++ later →
  (∀ p, progress_row w = Some p →
        fits_uint32 (LastProcessedUID p) && fits_uint32 (TotalMessages p)
          && fits_uint32 (ProcessedCount p) = true) →
  dial_ok mb = true → login_ok mb = true → select_INBOX mb = Some messages →
  0 ≤ messages →
  messages + 2000 < 4294967296 →
  (Z.to_nat messages < fuel)%nat →
  let config := {| BatchSize := clamp_BatchSize batch; Verbose := verbose |} in
  let scanned :=
    snd (scanEmailsBatch unicode ParseAddress fuel config mb
           (snd (showStats (snd (initDB w))))) in
  let count_failed := hd false (tl (tl (tl (faults scanned)))) in
  let r := main unicode ParseAddress fuel batch verbose mb w in
  fst r = StatusSuccess
            (if count_failed then 0
             else Z.of_nat (List.length (senders_table scanned)))
  ∧ senders_table (snd r) = senders_table scanned.
Proof.
  intros Hfaults Hfits Hdial Hlogin Hselect Hmsg Hbound Hfuel. cbv zeta.
  destruct w as [rows row fs l ranges]. simpl in Hfits.
  change (fs = replicate 8 false ++ later) in Hfaults. subst fs.
  pose proof (clamp_BatchSize_range batch) as Hbatch.
  set (config := {| BatchSize := clamp_BatchSize batch; Verbose := verbose |}).
  set (w0 := {| senders_table := rows; progress_row := row;
                faults := replicate 8 false ++ later; log := l;
                fetched := ranges |}).
  set (row1 := match row with Some p => Some p | None => Some zero_progress end).
  set (w1 := {| senders_table := rows; progress_row := row1;
                faults := replicate 4 false ++ later; log := l;
                fetched := ranges |}).
  assert (Hinit : initDB w0 = (None, w1)).
  { unfold initDB, w0, w1, row1. run_m. open_world. by destruct row. }
  set (w2 := {| senders_table := rows; progress_row := row1;
                faults := false :: later; log := l; fetched := ranges |}).
  assert (Hstats : showStats w1 = (tt, w2)) by reflexivity.
  assert (Hw2 : snd (showStats (snd (initDB w0))) = w2)
    by (rewrite Hinit; exact (f_equal snd Hstats)).
  rewrite Hw2. unfold main. fold config.
  rewrite bind_run, Hinit. simpl. rewrite bind_run, Hstats. simpl.
  rewrite bind_run.
  assert (Hload : ∃ p, fst (loadProgress w2) = Some p).
  { unfold loadProgress, w2, row1. run_m. open_world.
    destruct row as [p|]; simpl.
    - rewrite (Hfits p eq_refl). by exists p.
    - by exists zero_progress. }
  destruct Hload as [p Hload].
  pose proof (scan_returns_nil fuel config mb w2 p messages Hload Hdial
                Hlogin Hselect ltac:(simpl; lia) Hmsg ltac:(simpl; lia) Hfuel)
    as Hnil.
  destruct (scanEmailsBatch unicode ParseAddress fuel config mb w2) as [e w3].
  simpl in Hnil. simpl. rewrite Hnil.
  unfold showStats, count_senders. run_m. open_world.
  destruct (hd false (tl (tl (tl (faults w3))))); simpl; split; reflexivity.
Qed.

End WithParser.

(** The count query fails after a scan of the 1247 messages that stored
    its senders: the message says 0 senders. *)
Lemma main_reports_success_whatever_fails_witness :
  let w := with_faults (replicate 8 false ++ [true; true; true])
             fresh_world in
  let r := main example_unicode example_ParseAddress 1300 7 false
             flaky_mailbox w in
  fst r
  = StatusSuccess
      (if hd false (tl (tl (tl (faults
            (snd (scanEmailsBatch example_unicode example_ParseAddress 1300
                    {| BatchSize := clamp_BatchSize 7; Verbose := false |}
                    flaky_mailbox (snd (showStats (snd (initDB w))))))))))
       then 0
       else Z.of_nat
              (List.length
                 (senders_table
                    (snd (scanEmailsBatch example_unicode example_ParseAddress
                            1300
                            {| BatchSize := clamp_BatchSize 7;
                               Verbose := false |}
                            flaky_mailbox
                            (snd (showStats (snd (initDB w)))))))))
  ∧ senders_table (snd r)
    = senders_table
        (snd (scanEmailsBatch example_unicode example_ParseAddress 1300
                {| BatchSize := clamp_BatchSize 7; Verbose := false |}
                flaky_mailbox (snd (showStats (snd (initDB w)))))).
Proof.
  exact (main_reports_success_whatever_fails example_unicode
           example_ParseAddress 1300 7 false flaky_mailbox
           (with_faults (replicate 8 false ++ [true; true; true]) fresh_world)
           1247 [true; true; true] eq_refl
           ltac:(intros p Hp; discriminate Hp) eq_refl eq_refl eq_refl
           ltac:(discriminate) eq_refl ltac:(vm_compute; lia)).
Defined.

End MainFacts.

(** ** The checkpoint never moves backwards *)

Module MonotoneFacts.
Import GoStrings Resolver Store Scan Invariants RunSpec StoreFacts ScanInvariants.
Import LoopFacts LoopMore Examples.

Lemma insensitive_at_least (low : Z) : insensitive (checkpoint_at_least low).
Proof. by split. Qed.

Lemma saveProgress_at_least (low : Z) (progress : Progress) :
  low ≤ LastProcessedUID progress →
  triple (checkpoint_at_least low) (saveProgress progress)
    (λ _, checkpoint_at_least low).
Proof.
  intros Hlow w (q & Hrow & Hq). unfold saveProgress. run_m.
  destruct (hd false (faults w)); simpl; open_world.
  - by exists q.
  - rewrite Hrow. simpl. by exists progress.
Qed.

Section WithParser.

Variable unicode : Unicode.
Variable ParseAddress : string -> option MailAddress.

(** One batch leaves [LastProcessedUID] between the position before the
    batch and its last possible message, and the stored checkpoint at
    [low] or beyond. *)
Lemma batch_body_monotone (low : Z) (config : Config) (mb : Mailbox)
    (messages currentUID : Z) (progress : Progress) :
  0 < BatchSize config →
  messages + BatchSize config < 4294967296 →
  1 ≤ currentUID ≤ messages →
  low ≤ currentUID - 1 →
  triple (checkpoint_at_least low)
    (batch_body unicode ParseAddress config mb messages currentUID progress)
    (λ p w,
       checkpoint_at_least low w
       ∧ currentUID - 1 ≤ LastProcessedUID p
         ≤ currentUID + BatchSize config - 1).
Proof.
  intros Hpos Hbound Hcur Hlow.
  pose proof (insensitive_at_least low) as HI.
  destruct (batch_end_no_wrap config messages currentUID Hpos Hbound
              ltac:(lia)) as [Hend _].
  assert (Hback : wrap32 (currentUID - 1) = currentUID - 1).
  { unfold wrap32. apply Z.mod_small. lia. }
  unfold batch_body. rewrite Hend.
  apply (triple_bind _ _ _ (λ _, checkpoint_at_least low)).
  { intros w Hw. unfold processBatch. run_m.
    by destruct (snd (Fetch mb currentUID _)). }
  intros r. destruct (snd r).
  - eapply triple_bind; [by apply triple_log_event|]. intros ?.
    eapply triple_bind.
    { apply saveProgress_at_least. simpl. lia. }
    intros ?. apply triple_ret. intros w Hw. split; [done|]. simpl. lia.
  - eapply triple_bind; [by apply filter_new_preserves|]. intros newSenders.
    eapply triple_bind.
    { apply store_new_preserves; [done|]. intros senders verbose.
      by apply saveSendersBatch_preserves. }
    intros ?. unfold update_progress.
    eapply triple_bind.
    { apply saveProgress_at_least. simpl. lia. }
    intros err.
    apply (triple_bind _ _ _ (λ _, checkpoint_at_least low)).
    { destruct (is_nil err); [by apply triple_ret|by apply triple_log_event]. }
    intros ?. apply triple_ret. intros w Hw. split; [done|]. simpl. lia.
Qed.

Lemma batch_loop_monotone (low : Z) (config : Config) (mb : Mailbox)
    (messages : Z) (fuel : nat) :
  0 < BatchSize config →
  messages + BatchSize config < 4294967296 →
  ∀ currentUID progress,
    1 ≤ currentUID →
    low ≤ currentUID - 1 →
    LastProcessedUID progress ≤ currentUID - 1 →
    triple (checkpoint_at_least low)
      (batch_loop unicode ParseAddress fuel config mb messages currentUID progress)
      (λ r w,
         checkpoint_at_least low w
         ∧ LastProcessedUID progress ≤ LastProcessedUID (snd r)).
Proof.
  intros Hpos Hbound.
  induction fuel as [|fuel IH]; intros currentUID progress Hcur Hlow Hlast;
    simpl; destruct (Z.leb_spec currentUID messages) as [Hle|Hgt];
    try (apply triple_ret; intros w Hw; by split).
  destruct (batch_end_no_wrap config messages currentUID Hpos Hbound
              ltac:(lia)) as [_ Hnext].
  rewrite Hnext.
  eapply triple_bind.
  { apply (batch_body_monotone low); [done|done|lia|done]. }
  intros p. simpl.
  apply (triple_assume _
           (currentUID - 1 ≤ LastProcessedUID p
            ≤ currentUID + BatchSize config - 1)
           (checkpoint_at_least low)); [by intros w [? ?]|].
  intros Hp w Hw.
  destruct (IH (currentUID + BatchSize config) p ltac:(lia) ltac:(lia)
              ltac:(lia) w Hw) as [Hw' Hmono].
  split; [done|]. lia.
Qed.

(** X20: [LastProcessedUID] never moves backwards.  At every point of a
    run, whatever fails, the checkpoint in memory and the checkpoint in the
    database are at or beyond the position the run started from (as long
    as the counter does not wrap around). *)
Theorem checkpoint_never_moves_backwards (fuel : nat) (config : Config)
    (mb : Mailbox) (w : World) (p : Progress) (messages : Z) :
  fst (loadProgress w) = Some p →
  dial_ok mb = true → login_ok mb = true → select_INBOX mb = Some messages →
  0 < BatchSize config →
  messages + BatchSize config < 4294967296 →
  LastProcessedUID p < 4294967295 →
  let r := scanEmailsBatch unicode ParseAddress fuel config mb w in
  (∃ p', progress_at_exit (fst r) = Some p'
         ∧ LastProcessedUID p ≤ LastProcessedUID p')
  ∧ ∃ q, progress_row (snd r) = Some q
         ∧ LastProcessedUID p ≤ LastProcessedUID q.
Proof.
  intros Hload Hdial Hlogin Hselect Hpos Hbound Hlast. simpl.
  destruct (start_position_no_wrap p (loadProgress_fits w p Hload) Hlast)
    as [Hstart Hlo].
  pose proof (loadProgress_row w p Hload) as Hrow.
  assert (Hidle : messages = 0 ∨ wrap32 (LastProcessedUID p + 1) > messages →
    (∃ p', progress_at_exit
             (fst (scanEmailsBatch unicode ParseAddress fuel config mb w)) = Some p'
           ∧ LastProcessedUID p ≤ LastProcessedUID p')
    ∧ ∃ q, progress_row (snd (scanEmailsBatch unicode ParseAddress fuel config mb w))
           = Some q
           ∧ LastProcessedUID p ≤ LastProcessedUID q).
  { intros Hcase.
    destruct (scanEmailsBatch_idle unicode ParseAddress fuel config mb w p messages
                Hload Hdial Hlogin Hselect Hcase)
      as [(_ & _ & Hsame & _) Hexit].
    pose proof (loadProgress_same_data w) as (_ & Hp & _).
    split.
    - rewrite Hexit. eexists. split; [reflexivity|]. simpl. lia.
    - exists p. split; [|lia]. by rewrite Hsame, <- Hp. }
  destruct (Z.eq_dec messages 0) as [Hzero|Hnonzero]; [by apply Hidle; left|].
  destruct (Z_gt_le_dec (wrap32 (LastProcessedUID p + 1)) messages)
    as [Hgt|Hle]; [by apply Hidle; right|].
  unfold scanEmailsBatch.
  rewrite bind_run, Hload, Hdial, Hlogin, Hselect. simpl.
  destruct (Z.eqb_spec messages 0) as [|_]; [done|].
  destruct (Z.gtb_spec (wrap32 (LastProcessedUID p + 1)) messages) as [|_];
    [lia|].
  rewrite Hstart in *.
  rewrite bind_run. simpl. rewrite bind_run.
  match goal with
  | |- context [batch_loop unicode ParseAddress fuel config mb messages ?c ?q ?w1] =>
      assert (Hw1 : checkpoint_at_least (LastProcessedUID p) w1)
        by (exists p; split; [exact Hrow|lia]);
      pose proof (batch_loop_monotone (LastProcessedUID p) config mb messages
                    fuel Hpos Hbound c q ltac:(lia) ltac:(lia)
                    ltac:(simpl; lia) w1 Hw1) as [Hw2 Hmono];
      destruct (batch_loop unicode ParseAddress fuel config mb messages c q w1)
        as [[finished p'] w2]
  end.
  simpl in Hw2, Hmono.
  destruct finished; simpl; (split; [by exists p'|exact Hw2]).
Qed.

End WithParser.

Lemma checkpoint_never_moves_backwards_witness :
  ∃ q, progress_row
         (snd (scanEmailsBatch example_unicode example_ParseAddress 2
             config_500 flaky_mailbox
                 world_failing_save)) = Some q
       ∧ LastProcessedUID zero_progress ≤ LastProcessedUID q.
Proof.
  exact (proj2 (checkpoint_never_moves_backwards example_unicode example_ParseAddress 2
                  config_500 flaky_mailbox world_failing_save zero_progress
                  1247 eq_refl eq_refl eq_refl eq_refl eq_refl eq_refl
                  eq_refl)).
Defined.

End MonotoneFacts.
